(** * AggregatingMemory storage engine and the NONE compression codec

    A shallow embedding of [StorageAggregatingMemory.cpp] (the in-memory
    block store with its sources, output stream and mutation path), of
    [CompressionCodecNone.cpp] and of [SSHPublicKey.cpp], followed by the
    properties proved about them.

    Conventions.
    - [size_t] and [UInt64] values are [N] with the wrap-around at [2^64]
      written out ([wrap64]); [unsigned] and [UInt32] wrap at [2^32].
    - [std::vector<Block>] is [list Block]; a [shared_ptr<const Blocks>]
      snapshot is the list value itself (it is immutable), under an
      [option] where the pointer can be null.
    - A C++ call ends in one of four ways, see [Outcome]: it returns, it
      throws a [DB::Exception], a failed [assert] aborts the process, or
      its behaviour is undefined. *)

From Stdlib Require Import NArith ZArith Lia.
From stdpp Require Import base list strings pretty numbers gmap sorting.

Open Scope N_scope.

(** ** Machine integers *)

Definition SIZE_WIDTH : N := 64.
Definition UINT_WIDTH : N := 32.

(** Arithmetic on [size_t] is arithmetic modulo [2^64]. *)
Definition wrap64 (n : N) : N := n mod 2 ^ SIZE_WIDTH.

(** Conversion to [unsigned] / [UInt32] keeps the low 32 bits. *)
Definition wrap32 (n : N) : N := n mod 2 ^ UINT_WIDTH.

(** ** Exceptions and outcomes *)

Module ErrorCodes.
Inductive t : Set :=
| NUMBER_OF_ARGUMENTS_DOESNT_MATCH
| INCORRECT_QUERY
| CORRUPTED_DATA
| NOT_FOUND_COLUMN_IN_BLOCK
| OTHER (code : N).
End ErrorCodes.

Record Exception := mkException {
  message : string;
  code : ErrorCodes.t
}.

Inductive Outcome (A : Type) : Type :=
| Done (a : A)
| Thrown (e : Exception)
| Aborted (assertion : string)
| Undefined.

Arguments Done {A} a.
Arguments Thrown {A} e.
Arguments Aborted {A} assertion.
Arguments Undefined {A}.

Definition outcome_bind {A B} (m : Outcome A) (k : A -> Outcome B) : Outcome B :=
  match m with
  | Done a => k a
  | Thrown e => Thrown e
  | Aborted t => Aborted t
  | Undefined => Undefined
  end.

#[global] Instance outcome_ret : MRet Outcome := fun _ a => Done a.
#[global] Instance outcome_mbind : MBind Outcome :=
  fun _ _ k m => outcome_bind m k.

(** ** CompressionCodecNone *)

Module CompressionCodecNone.

(** A [char *] buffer is the list of the bytes it points to. [memcpy]
    overwrites the first [n] bytes of [dest] with the first [n] bytes of
    [src]; reading or writing past either buffer is undefined. *)
Definition memcpy (dest src : list Byte.byte) (n : N) : Outcome (list Byte.byte) :=
  if bool_decide (N.to_nat n <= length src /\ N.to_nat n <= length dest)%nat
  then Done (take (N.to_nat n) src ++ drop (N.to_nat n) dest)
  else Undefined.

Definition doCompressData (source : list Byte.byte) (source_size : N)
    (dest : list Byte.byte) : Outcome (list Byte.byte * N) :=
  dest' ← memcpy dest source source_size;
  mret (dest', source_size).

Definition doDecompressData (source : list Byte.byte) (source_size : N)
    (dest : list Byte.byte) (uncompressed_size : N) : Outcome (list Byte.byte) :=
  if negb (source_size =? uncompressed_size)
  then Thrown (mkException
         ("Wrong data for compression codec NONE: source_size ("
            +:+ pretty source_size +:+ ") != uncompressed_size ("
            +:+ pretty uncompressed_size +:+ ")")
         ErrorCodes.CORRUPTED_DATA)
  else memcpy dest source uncompressed_size.

End CompressionCodecNone.

(** ** Blocks and the interfaces declared outside this translation unit *)

(** Columns ([IColumn]) and data types ([IDataType]) are opaque here. *)
Class ColumnTypes := {
  Column : Type;
  DataType : Type
}.

Section DataModel.
Context `{ColumnTypes}.

Record ColumnWithTypeAndName := mkColumnWithTypeAndName {
  column : Column;
  type : DataType;
  name : string
}.

(** [Block] is an ordered container of named, typed columns; [Blocks] is
    [std::vector<Block>]. *)
Definition Block : Type := list ColumnWithTypeAndName.
Definition Blocks : Type := list Block.

(** An entry of the column descriptor set: a column of the table or, with
    [subcolumn_name] set, a subcolumn of one. *)
Record NameAndTypePair := mkNameAndTypePair {
  getNameInStorage : string;
  subcolumn_name : option string;
  getTypeInStorage : DataType
}.

Definition isSubcolumn (elem : NameAndTypePair) : bool :=
  bool_decide (is_Some (subcolumn_name elem)).

(** [getSubcolumnName] is the empty string for a plain column. *)
Definition getSubcolumnName (elem : NameAndTypePair) : string :=
  default "" (subcolumn_name elem).

Definition NamesAndTypesList : Type := list NameAndTypePair.

Record Chunk := mkChunk {
  chunk_columns : list Column;
  num_rows : N
}.

(** The default-constructed chunk returned by [return {};]. *)
Definition empty_chunk : Chunk := mkChunk [] 0.

End DataModel.

Definition Names : Type := list string.

(** A generic syntax tree node ([IAST]): an identifier and children. *)
#[local] Unset Elimination Schemes.
Inductive IAST : Type :=
| mkAST (getID : string) (children : list IAST).
#[local] Set Elimination Schemes.

Definition children (a : IAST) : list IAST :=
  match a with mkAST _ c => c end.

Record ASTSelectWithUnionQuery := mkASTSelectWithUnionQuery {
  list_of_selects : IAST
}.

Record ASTCreateQuery := mkASTCreateQuery {
  select : option ASTSelectWithUnionQuery
}.

Record SelectQueryDescription := mkSelectQueryDescription {
  inner_query : IAST
}.

Definition StorageID : Type := string.

Record StorageInMemoryMetadata `{ColumnTypes} := mkStorageInMemoryMetadata {
  columns : list (string * DataType);
  constraints : list IAST;
  select_query : option SelectQueryDescription
}.
Arguments mkStorageInMemoryMetadata {_} _ _ _.

(** Functions this file calls but does not define. They are parameters of
    the development: [rows], [bytes], [allocatedBytes] and [block_bool]
    ([Block::operator bool]) from [Core/Block.h], [getSubcolumn] from
    [IDataType], the checks and lookups of [StorageInMemoryMetadata], and
    [SelectQueryDescription::getSelectQueryFromASTForAggr]. *)
Class Externals `{ColumnTypes} := {
  rows : Block -> N;
  bytes : Block -> N;
  allocatedBytes : Block -> N;
  block_bool : Block -> bool;
  getSubcolumn : DataType -> string -> Column -> Outcome Column;
  check_names : StorageInMemoryMetadata -> Names -> StorageID -> Outcome unit;
  check_block : StorageInMemoryMetadata -> Block -> Outcome unit;
  getSampleBlock : StorageInMemoryMetadata -> Block;
  getSampleBlockForColumns :
    StorageInMemoryMetadata -> Names -> StorageID -> Outcome Block;
  addTypes : StorageInMemoryMetadata -> Names -> Outcome NamesAndTypesList;
  getSelectQueryFromASTForAggr :
    ASTSelectWithUnionQuery -> Outcome SelectQueryDescription
}.

Section BlockOperations.
Context `{ColumnTypes}.

(** [Block::getByName]: the position and the element of the first column
    called [n]; throws when there is none. The position stands for the
    reference the C++ function returns. *)
Definition getByName (b : Block) (n : string)
    : Outcome (nat * ColumnWithTypeAndName) :=
  match list_find (fun c => name c = n) b with
  | Some p => Done p
  | None =>
      Thrown (mkException ("Not found column " +:+ n +:+ " in block")
                ErrorCodes.NOT_FOUND_COLUMN_IN_BLOCK)
  end.

(** [updateBlockData]: for every column of [new_block], in order, the
    column of that name in [old_block] gets the new column pointer. *)
Fixpoint updateBlockData (old_block new_block : Block) : Outcome Block :=
  match new_block with
  | [] => Done old_block
  | it :: rest =>
      let col_name := name it in
      '(i, col_with_type_name) ← getByName old_block col_name;
      updateBlockData
        (<[i := mkColumnWithTypeAndName (column it)
                  (type col_with_type_name) (name col_with_type_name)]>
           old_block)
        rest
  end.

End BlockOperations.

(** ** The storage object and the monad of its member functions *)

Module Storage.
Section Storage.
Context `{ColumnTypes}.

(** The members of [StorageAggregatingMemory]. [data] is the
    [MultiVersion<Blocks>] holder: [get] reads the published version,
    [set] publishes a new one. The two counters are
    [std::atomic<size_t>]. The [mutex] only orders writers and has no
    content in a sequential run. *)
Record t := mk {
  table_id : StorageID;
  metadata : StorageInMemoryMetadata;
  data : Blocks;
  total_size_bytes : N;
  total_size_rows : N
}.

(** A member function reads and writes the storage object and ends in an
    [Outcome]; the storage it leaves behind is returned in every case. *)
Definition M (A : Type) : Type := t -> Outcome A * t.

Definition ret {A} (a : A) : M A := fun s => (Done a, s).

Definition bind {A B} (m : M A) (k : A -> M B) : M B :=
  fun s =>
    match m s with
    | (Done a, s') => k a s'
    | (Thrown e, s') => (Thrown e, s')
    | (Aborted x, s') => (Aborted x, s')
    | (Undefined, s') => (Undefined, s')
    end.

Definition lift {A} (o : Outcome A) : M A := fun s => (o, s).

Definition data_get : M Blocks := fun s => (Done (data s), s).

Definition data_set (new_data : Blocks) : M unit :=
  fun s => (Done tt,
            mk (table_id s) (metadata s) new_data
               (total_size_bytes s) (total_size_rows s)).

Definition total_size_bytes_store (v : N) : M unit :=
  fun s => (Done tt,
            mk (table_id s) (metadata s) (data s) v (total_size_rows s)).

Definition total_size_rows_store (v : N) : M unit :=
  fun s => (Done tt,
            mk (table_id s) (metadata s) (data s) (total_size_bytes s) v).

Definition total_size_bytes_fetch_add (v : N) : M N :=
  fun s => (Done (total_size_bytes s),
            mk (table_id s) (metadata s) (data s)
               (wrap64 (total_size_bytes s + v)) (total_size_rows s)).

Definition total_size_rows_fetch_add (v : N) : M N :=
  fun s => (Done (total_size_rows s),
            mk (table_id s) (metadata s) (data s)
               (total_size_bytes s) (wrap64 (total_size_rows s + v))).

Definition total_size_bytes_load : M N :=
  fun s => (Done (total_size_bytes s), s).

Definition total_size_rows_load : M N :=
  fun s => (Done (total_size_rows s), s).

Definition getInMemoryMetadataPtr : M StorageInMemoryMetadata :=
  fun s => (Done (metadata s), s).

Definition getStorageID : M StorageID := fun s => (Done (table_id s), s).

(** The [assert] macro of [<cassert>]: with [NDEBUG] defined it expands
    to nothing; otherwise a false condition aborts the process. *)
Definition assert (NDEBUG : bool) (cond : bool) (text : string) : M unit :=
  if NDEBUG then ret tt
  else if cond then ret tt else lift (Aborted text).

End Storage.
End Storage.

#[global] Instance storage_ret `{ColumnTypes} : MRet Storage.M :=
  fun _ a => Storage.ret a.
#[global] Instance storage_mbind `{ColumnTypes} : MBind Storage.M :=
  fun _ _ k m => Storage.bind m k.

(** ** MemorySource *)

(** The [std::atomic<size_t>] objects reached through shared pointers: a
    pointer is a position in this list, so that sources holding the same
    pointer see each other's increments. *)
Definition Atomics : Type := list N.

Definition make_shared_atomic (v : N) (atomics : Atomics) : nat * Atomics :=
  (length atomics, atomics ++ [v]).

Module MemorySource.
Section MemorySource.
Context `{Externals}.

(** [InitializerFunc] is [std::function<void(std::shared_ptr<const Blocks> &)>].
    A callable of that type is what it has captured together with what a
    call does with it: how the call ends, what it leaves in the pointer
    it was handed ([None] is the null pointer), and what the callable
    holds afterwards. *)
Record InitializerFunc := mkInitializerFunc {
  captures : Type;
  captured : captures;
  call : captures -> option Blocks -> Outcome unit * option Blocks * captures
}.

(** One call: its end, the pointer, and the callable as the call leaves
    it. *)
Definition invoke (f : InitializerFunc) (data_ : option Blocks)
    : Outcome unit * option Blocks * InitializerFunc :=
  let '(ended, data_, captured_) := call f (captured f) data_ in
  (ended, data_, mkInitializerFunc (captures f) captured_ (call f)).

(** The members. [data] is a [std::shared_ptr<const Blocks>] and may be
    null; an empty [std::function] is [None]. *)
Record t := mk {
  header : Block;
  column_names_and_types : NamesAndTypesList;
  execution_index : N;
  data : option Blocks;
  parallel_execution_index : option nat;
  initializer_func : option InitializerFunc
}.

Definition create (column_names_ : Names) (storage_id : StorageID)
    (metadata_snapshot : StorageInMemoryMetadata) (data_ : option Blocks)
    (parallel_execution_index_ : option nat)
    (initializer_func_ : option InitializerFunc) : Outcome t :=
  sample ← getSampleBlockForColumns metadata_snapshot column_names_ storage_id;
  names_and_types ← addTypes metadata_snapshot column_names_;
  mret (mk sample names_and_types 0 data_ parallel_execution_index_
           initializer_func_).

Definition getName : string := "AggregatingMemory".

(** The post-increment of the shared atomic (or of the private index
    when no shared one was given) is one indivisible read-modify-write. *)
Definition getAndIncrementExecutionIndex (src : t) (atomics : Atomics)
    : Outcome N * t * Atomics :=
  match parallel_execution_index src with
  | Some p =>
      match atomics !! p with
      | Some v => (Done v, src, <[p := wrap64 (v + 1)]> atomics)
      | None => (Undefined, src, atomics)
      end
  | None =>
      (Done (execution_index src),
       mk (header src) (column_names_and_types src)
          (wrap64 (execution_index src + 1)) (data src)
          (parallel_execution_index src) (initializer_func src),
       atomics)
  end.

(** One iteration of the loop over [column_names_and_types]. *)
Definition required_column (src_block : Block) (elem : NameAndTypePair)
    : Outcome Column :=
  '(_, found) ← getByName src_block (getNameInStorage elem);
  let current_column := column found in
  if isSubcolumn elem
  then getSubcolumn (getTypeInStorage elem) (getSubcolumnName elem)
         current_column
  else mret current_column.

(** The first statement of [generate]: a pending initializer is called on
    [data]; [initializer_func = {}] is reached, and the initializer
    cleared, only when that call returns. *)
Definition run_initializer (src : t) : Outcome unit * t :=
  match initializer_func src with
  | Some f =>
      let '(ended, data_, f_) := invoke f (data src) in
      (ended,
       mk (header src) (column_names_and_types src) (execution_index src)
          data_ (parallel_execution_index src)
          (match ended with
           | Done _ => None
           | _ => Some f_
           end))
  | None => (Done tt, src)
  end.

(** [generate], returning next to its result the value of the local
    variable [current_index] ([None] when it was never assigned).
    [data->size()] on a null [data] is undefined. *)
Definition generate_with_index (src : t) (atomics : Atomics)
    : option N * Outcome Chunk * t * Atomics :=
  match run_initializer src with
  | (Done _, src) =>
      match getAndIncrementExecutionIndex src atomics with
      | (Done current_index, src, atomics) =>
          match data src with
          | Some blocks =>
              if bool_decide (N.of_nat (length blocks) <= current_index)
              then (Some current_index, Done empty_chunk, src, atomics)
              else
                match blocks !! N.to_nat current_index with
                | Some src_block =>
                    (Some current_index,
                     columns ← mapM (required_column src_block)
                                  (column_names_and_types src);
                     mret (mkChunk columns (rows src_block)),
                     src, atomics)
                | None => (Some current_index, Undefined, src, atomics)
                end
          | None => (Some current_index, Undefined, src, atomics)
          end
      | (Thrown e, src, atomics) => (None, Thrown e, src, atomics)
      | (Aborted x, src, atomics) => (None, Aborted x, src, atomics)
      | (Undefined, src, atomics) => (None, Undefined, src, atomics)
      end
  | (Thrown e, src) => (None, Thrown e, src, atomics)
  | (Aborted x, src) => (None, Aborted x, src, atomics)
  | (Undefined, src) => (None, Undefined, src, atomics)
  end.


End MemorySource.
End MemorySource.

(** A [Pipe] of sources, together with the atomics they point to. *)
Record Pipe `{Externals} := mkPipe {
  processors : list MemorySource.t;
  atomics : Atomics
}.
Arguments mkPipe {_ _} _ _.

(** ** AggregatingOutputStream *)

Module AggregatingOutputStream.
Section AggregatingOutputStream.
Context `{Externals}.

Record t := mk {
  new_blocks : Blocks;
  metadata_snapshot : StorageInMemoryMetadata
}.

Definition getHeader (stream : t) : Block :=
  getSampleBlock (metadata_snapshot stream).

(** [write] returns the stream with the block appended to its buffer;
    when the check throws, the caller keeps the stream it had. *)
Definition write (stream : t) (block : Block) : Storage.M t :=
  _ ← Storage.lift (check_block (metadata_snapshot stream) block);
  mret (mk (new_blocks stream ++ [block]) (metadata_snapshot stream)).

(** The loop of [writeSuffix] that adds up the buffered blocks. *)
Definition inserted (blocks : Blocks) : N * N :=
  foldl (fun '(inserted_bytes, inserted_rows) block =>
           (wrap64 (inserted_bytes + allocatedBytes block),
            wrap64 (inserted_rows + rows block)))
        (0, 0) blocks.

(** [writeSuffix]. From the [lock_guard] on, the function runs alone with
    respect to other writers. *)
Definition writeSuffix (stream : t) : Storage.M unit :=
  let '(inserted_bytes, inserted_rows) := inserted (new_blocks stream) in
  current ← Storage.data_get;
  let new_data := current ++ new_blocks stream in
  _ ← Storage.data_set new_data;
  _ ← Storage.total_size_bytes_fetch_add inserted_bytes;
  _ ← Storage.total_size_rows_fetch_add inserted_rows;
  mret tt.

End AggregatingOutputStream.
End AggregatingOutputStream.

(** ** StorageAggregatingMemory *)

(** What [MutationsInterpreter] answers for one mutation: the blocks that
    successive [read()] calls on the executed stream return (after them
    [read()] returns the empty block) and whether all columns are
    affected. *)
Record MutationsInterpreter `{ColumnTypes} := mkMutationsInterpreter {
  execute : Outcome (list Block);
  isAffectingAllColumns : bool
}.
Arguments mkMutationsInterpreter {_} _ _.

Module StorageAggregatingMemory.
Section StorageAggregatingMemory.
Context `{Externals}.

(** [getName] is declared in the header; it answers the name under which
    the engine is registered. *)
Definition getName : string := "AggregatingMemory".

(** The constructor. The storage starts with an empty published sequence
    (member initializer) and zero counters. The [LOG_DEBUG] line has no
    effect on the object and is left out. *)
Definition create (table_id_ : StorageID)
    (columns_description_ : list (string * DataType))
    (constraints_ : list IAST) (query : ASTCreateQuery)
    : Outcome Storage.t :=
  match select query with
  | None =>
      Thrown (mkException ("SELECT query is not specified for " +:+ getName)
                ErrorCodes.INCORRECT_QUERY)
  | Some query_select =>
      if negb (length (children (list_of_selects query_select)) =? 1)%nat
      then Thrown (mkException "UNION is not supported for AggregatingMemory"
                     ErrorCodes.INCORRECT_QUERY)
      else
        select ← getSelectQueryFromASTForAggr query_select;
        mret (Storage.mk table_id_
                (mkStorageInMemoryMetadata columns_description_ constraints_
                   (Some select))
                [] 0 0)
  end.

Definition unitePipes (pipes : list MemorySource.t) (atomics : Atomics)
    : Pipe := mkPipe pipes atomics.

(** [read]. [num_streams] is an [unsigned]; the comparison with [size] is
    made in [size_t] and the assignment converts back to [unsigned]. The
    unused parameters are left out, and so are the virtual columns handed
    to the check, of which this storage has none. *)
Definition read (column_names : Names)
    (metadata_snapshot : StorageInMemoryMetadata) (num_streams : N)
    : Storage.M Pipe :=
  storage_id ← Storage.getStorageID;
  _ ← Storage.lift (check_names metadata_snapshot column_names storage_id);
  current_data ← Storage.data_get;
  let size := N.of_nat (length current_data) in
  let num_streams :=
    if size <? num_streams then wrap32 size else num_streams in
  let '(parallel_execution_index, atomics) := make_shared_atomic 0 [] in
  pipes ← Storage.lift
    (mapM (fun _ : nat =>
             MemorySource.create column_names storage_id metadata_snapshot
               (Some current_data) (Some parallel_execution_index) None)
          (seq 0 (N.to_nat num_streams)));
  mret (unitePipes pipes atomics).

Definition write (metadata_snapshot : StorageInMemoryMetadata)
    : Storage.M AggregatingOutputStream.t :=
  mret (AggregatingOutputStream.mk [] metadata_snapshot).

Definition drop : Storage.M unit :=
  _ ← Storage.data_set [];
  _ ← Storage.total_size_bytes_store 0;
  Storage.total_size_rows_store 0.

(** The loop [while ((block = in->read())) out.push_back(block);] on the
    blocks the stream returns; [readPrefix] and [readSuffix] belong to the
    stream and do not touch the storage. *)
Fixpoint read_all (in_ : list Block) : Blocks :=
  match in_ with
  | [] => []
  | block :: rest =>
      if block_bool block then block :: read_all rest else []
  end.

(** The loop over [data_it] and [out_it] of the branch where only some
    columns are affected; it returns the updated copy and the final
    position of [out_it]. Dereferencing [out_it] at [out.end()] is
    undefined, which only a build without the assertion can reach. *)
Fixpoint update_blocks (NDEBUG : bool) (data_it out_it : Blocks)
    : Storage.M (Blocks * Blocks) :=
  match data_it with
  | [] => mret ([], out_it)
  | old_block :: data_next =>
      _ ← Storage.assert NDEBUG (bool_decide (out_it <> []))
            "out_it != out.end()";
      match out_it with
      | [] => Storage.lift Undefined
      | new_block :: out_next =>
          updated ← Storage.lift (updateBlockData old_block new_block);
          '(rest, out_end) ← update_blocks NDEBUG data_next out_next;
          mret (updated :: rest, out_end)
      end
  end.

(** The loop of [mutate] that adds up the new blocks. *)
Definition summed (new_data : Blocks) : N * N :=
  foldl (fun '(rows_, bytes_) buffer =>
           (wrap64 (rows_ + rows buffer), wrap64 (bytes_ + bytes buffer)))
        (0, 0) new_data.

(** [mutate]. The interpreter built from the table, the metadata, the
    commands and the context is given by its answers, [interpreter];
    [NDEBUG] tells whether the build defines that macro. The lock is held
    throughout. *)
Definition mutate (NDEBUG : bool) (interpreter : MutationsInterpreter)
    : Storage.M unit :=
  metadata_snapshot ← Storage.getInMemoryMetadataPtr;
  storage ← Storage.getStorageID;
  in_ ← Storage.lift (execute interpreter);
  let out := read_all in_ in
  new_data ←
    (if isAffectingAllColumns interpreter
     then mret out
     else
       current ← Storage.data_get;
       '(updated, out_it) ← update_blocks NDEBUG current out;
       _ ← Storage.assert NDEBUG (bool_decide (out_it = []))
             "out_it == out.end()";
       mret updated);
  let '(rows_, bytes_) := summed new_data in
  _ ← Storage.total_size_bytes_store rows_;
  _ ← Storage.total_size_rows_store bytes_;
  Storage.data_set new_data.

Definition truncate : Storage.M unit :=
  _ ← Storage.data_set [];
  _ ← Storage.total_size_bytes_store 0;
  Storage.total_size_rows_store 0.

Definition totalRows : Storage.M (option N) :=
  v ← Storage.total_size_rows_load;
  mret (Some v).

Definition totalBytes : Storage.M (option N) :=
  v ← Storage.total_size_bytes_load;
  mret (Some v).

End StorageAggregatingMemory.
End StorageAggregatingMemory.

(** ** Registration with the storage factory *)

Section Registration.
Context `{Externals}.

Record StorageFactoryArguments := mkArguments {
  engine_name : string;
  engine_args : list IAST;
  args_table_id : StorageID;
  args_columns : list (string * DataType);
  args_constraints : list IAST;
  args_query : ASTCreateQuery
}.

Record StorageFeatures := mkStorageFeatures {
  supports_parallel_insert : bool
}.

Record StorageFactoryEntry := mkEntry {
  entry_name : string;
  creator_fn : StorageFactoryArguments -> Outcome Storage.t;
  features : StorageFeatures
}.

Definition StorageFactory : Type := list StorageFactoryEntry.

(** The lambda handed to [registerStorage]. *)
Definition creator (args : StorageFactoryArguments) : Outcome Storage.t :=
  if negb (bool_decide (engine_args args = []))
  then Thrown (mkException
         ("Engine " +:+ engine_name args
            +:+ " doesn't support any arguments ("
            +:+ pretty (N.of_nat (length (engine_args args))) +:+ " given)")
         ErrorCodes.NUMBER_OF_ARGUMENTS_DOESNT_MATCH)
  else StorageAggregatingMemory.create (args_table_id args)
         (args_columns args) (args_constraints args) (args_query args).

Definition registerStorageAggregatingMemory (factory : StorageFactory)
    : StorageFactory :=
  factory ++ [mkEntry "AggregatingMemory" creator (mkStorageFeatures true)].

End Registration.

(** ** Running a pipe: interleavings of [generate] calls *)

Section Execution.
Context `{Externals}.

(** The [write] calls of one insert session, in order. *)
Fixpoint write_all (stream : AggregatingOutputStream.t) (blocks : Blocks)
    : Storage.M AggregatingOutputStream.t :=
  match blocks with
  | [] => mret stream
  | block :: rest =>
      stream ← AggregatingOutputStream.write stream block;
      write_all stream rest
  end.

(** One call of [generate] by one worker, as an observer records it. *)
Record Event := mkEvent {
  worker : nat;
  current_index : option N;
  result : Outcome Chunk
}.

(** Worker [w] calls [generate] once. Every access to the shared index
    is a single atomic operation and everything else [generate] touches
    is private or immutable, so a parallel execution is an interleaving
    of such calls. *)
Definition step (w : nat) (p : Pipe) : option Event * Pipe :=
  match processors p !! w with
  | Some src =>
      let '(index, chunk, src', atomics') :=
        MemorySource.generate_with_index src (atomics p) in
      (Some (mkEvent w index chunk),
       mkPipe (<[w := src']> (processors p)) atomics')
  | None => (None, p)
  end.

(** A schedule names the worker of each successive call. *)
Fixpoint run (schedule : list nat) (p : Pipe) : list Event * Pipe :=
  match schedule with
  | [] => ([], p)
  | w :: rest =>
      let '(e, p') := step w p in
      let '(log, p'') := run rest p' in
      (from_option (fun e => e :: log) log e, p'')
  end.

(** The batch index a call delivered, if it delivered one: the call
    returned normally and its index was inside the snapshot. *)
Definition delivered_index (size : N) (e : Event) : option N :=
  match current_index e, result e with
  | Some i, Done _ => if i <? size then Some i else None
  | _, _ => None
  end.

(** The batch indices delivered to worker [w], in order. *)
Definition deliveries (size : N) (log : list Event) (w : nat) : list N :=
  omap (fun e => if bool_decide (worker e = w)
                 then delivered_index size e else None) log.

(** Worker [w] has seen the end of the stream. *)
Definition finished (size : N) (log : list Event) (w : nat) : Prop :=
  exists e i, e ∈ log /\ worker e = w /\ current_index e = Some i /\ size <= i.

End Execution.

(** ** A concrete instance of the interfaces, for examples

    Columns are described by their three sizes; a block has the row count
    of its first column and the summed byte sizes of its columns; the
    metadata checks compare names with the declared columns. *)

Module Fixture.

Record SizedColumn := mkSized {
  col_size : N;
  col_byteSize : N;
  col_allocatedBytes : N
}.

#[export] Instance types : ColumnTypes :=
  {| Column := SizedColumn; DataType := string |}.

Definition NO_SUCH_COLUMN_IN_TABLE : ErrorCodes.t := ErrorCodes.OTHER 16.

Definition block_rows (b : Block) : N :=
  match b with
  | c :: _ => col_size (column c)
  | [] => 0
  end.

Definition block_bytes (b : Block) : N :=
  foldr (fun c acc => col_byteSize (column c) + acc) 0 b.

Definition block_allocated (b : Block) : N :=
  foldr (fun c acc => col_allocatedBytes (column c) + acc) 0 b.

Definition known (meta : StorageInMemoryMetadata) (n : string) : bool :=
  bool_decide (n ∈ (columns meta).*1).

Definition check_known (meta : StorageInMemoryMetadata) (names : Names)
    : Outcome unit :=
  if forallb (known meta) names then Done tt
  else Thrown (mkException "There is no column in table"
                 NO_SUCH_COLUMN_IN_TABLE).

Definition with_type (meta : StorageInMemoryMetadata) (n : string)
    : NameAndTypePair :=
  mkNameAndTypePair n None (default "" (list_to_map (M := gmap string string)
                                          (columns meta) !! n)).

#[export] Instance externals : Externals := {|
  rows := block_rows;
  bytes := block_bytes;
  allocatedBytes := block_allocated;
  block_bool := fun b => negb (bool_decide (b = []));
  getSubcolumn := fun _ _ c => Done c;
  check_names := fun meta names _ => check_known meta names;
  check_block := fun meta b => check_known meta (name <$> b);
  getSampleBlock := fun _ => [];
  getSampleBlockForColumns := fun _ _ _ => Done [];
  addTypes := fun meta names => Done (with_type meta <$> names);
  getSelectQueryFromASTForAggr :=
    fun q => Done (mkSelectQueryDescription (list_of_selects q))
|}.

(** A one-column block called ["x"] with the given sizes. *)
Definition block_x (size byteSize allocated : N) : Block :=
  [mkColumnWithTypeAndName (mkSized size byteSize allocated) "UInt64" "x"].

Definition columns_x : list (string * DataType) := [("x", "UInt64")].

Definition meta_x : StorageInMemoryMetadata :=
  mkStorageInMemoryMetadata columns_x [] None.

(** A table of ["x"] holding the given blocks, with the given counters. *)
Definition table (blocks : Blocks) (total_bytes total_rows : N) : Storage.t :=
  Storage.mk "t" meta_x blocks total_bytes total_rows.

(** Batch A: 10 rows, 100 bytes (128 allocated); batch B: 5 rows, 60
    bytes (64 allocated); C: 7 rows, 70 bytes (96 allocated). *)
Definition A : Block := block_x 10 100 128.
Definition B : Block := block_x 5 60 64.
Definition C : Block := block_x 7 70 96.

(** The replacement blocks of the partial mutations in the examples
    carry new contents for column ["x"]. *)
Definition A' : Block := block_x 10 101 128.
Definition B' : Block := block_x 5 61 64.
Definition C' : Block := block_x 7 71 96.
Definition D' : Block := block_x 1 8 16.

(** A create query whose select is a union of two selects. *)
Definition union_query : ASTCreateQuery :=
  mkASTCreateQuery
    (Some (mkASTSelectWithUnionQuery
             (mkAST "ExpressionList"
                [mkAST "SelectQuery" []; mkAST "SelectQuery" []]))).

(** Scenario A: two batches, requested parallelism 4. *)
Definition scan_AB : Outcome Pipe * Storage.t :=
  StorageAggregatingMemory.read ["x"] meta_x 4 (table [A; B] 192 15).

(** One batch, one worker. *)
Definition scan_A : Outcome Pipe * Storage.t :=
  StorageAggregatingMemory.read ["x"] meta_x 1 (table [A] 128 10).

End Fixture.

(** ** Vocabulary of the properties *)

(** [fails_with c r]: the call threw an exception carrying error code [c]. *)
Definition fails_with {A} (c : ErrorCodes.t) (r : Outcome A) : Prop :=
  exists e, r = Thrown e /\ code e = c.

(** The sum of a measure ([rows], [bytes], [allocatedBytes]) over a
    sequence of blocks, as a mathematical integer. *)
Definition total `{ColumnTypes} (f : Block -> N) (blocks : Blocks) : N :=
  foldr (fun b acc => f b + acc) 0 blocks.

(** The value of [num_streams] after the clamp in [read]. *)
Definition clamped (num_streams size : N) : N :=
  if size <? num_streams then wrap32 size else num_streams.

(** The error conditions of construction and registration, as the
    exceptions that signal them. *)
Definition MissingDefiningQuery {A} (r : Outcome A) : Prop :=
  r = Thrown (mkException "SELECT query is not specified for AggregatingMemory"
                ErrorCodes.INCORRECT_QUERY).

Definition UnsupportedUnionQuery {A} (r : Outcome A) : Prop :=
  r = Thrown (mkException "UNION is not supported for AggregatingMemory"
                ErrorCodes.INCORRECT_QUERY).

Definition UnexpectedArguments {A} (r : Outcome A) : Prop :=
  fails_with ErrorCodes.NUMBER_OF_ARGUMENTS_DOESNT_MATCH r.

(** The state of a pipe created by [read] over the snapshot [blocks]: one
    shared index holding [c], and sources that all point to it, have no
    pending initializer and hold [blocks]. *)
Definition shares_cursor `{Externals} (blocks : Blocks) (c : N) (p : Pipe)
    : Prop :=
  atomics p = [c]
  /\ c < 2 ^ SIZE_WIDTH
  /\ Forall (fun src =>
               MemorySource.data src = Some blocks
               /\ MemorySource.parallel_execution_index src = Some 0%nat
               /\ MemorySource.initializer_func src = None)
            (processors p).

(** What [generate] returns once [current_index] is known to be [i]. *)
Definition produce `{Externals} (src : MemorySource.t) (i : N) : Outcome Chunk :=
  match MemorySource.data src with
  | Some blocks =>
      if bool_decide (N.of_nat (length blocks) <= i)
      then Done empty_chunk
      else
        match blocks !! N.to_nat i with
        | Some src_block =>
            columns ← mapM (MemorySource.required_column src_block)
                         (MemorySource.column_names_and_types src);
            mret (mkChunk columns (rows src_block))
        | None => Undefined
        end
  | None => Undefined
  end.

(** The log of a schedule on sources that share an index starting at [c]:
    the calls take the successive values of the index. *)
Fixpoint trace `{Externals} (sources : list MemorySource.t) (c : N)
    (schedule : list nat) : list Event :=
  match schedule with
  | [] => []
  | w :: rest =>
      match sources !! w with
      | Some src =>
          mkEvent w (Some c) (produce src c)
            :: trace sources (wrap64 (c + 1)) rest
      | None => trace sources c rest
      end
  end.

(** The shared index after a schedule. *)
Fixpoint cursor_after `{Externals} (sources : list MemorySource.t) (c : N)
    (schedule : list nat) : N :=
  match schedule with
  | [] => c
  | w :: rest =>
      match sources !! w with
      | Some _ => cursor_after sources (wrap64 (c + 1)) rest
      | None => cursor_after sources c rest
      end
  end.

(** A scan that delivers no batch: the read fails, or it yields a pipe
    without sources, on which no schedule produces any call. *)
Definition delivers_nothing `{Externals} (r : Outcome Pipe * Storage.t) : Prop :=
  match r.1 with
  | Done pipe =>
      processors pipe = []
      /\ forall schedule, (run schedule pipe).1 = []
  | _ => True
  end.

(** ** More concrete inputs for examples *)

Module FixtureMore.
Import Fixture.

(** A block of two columns, ["x"] and ["y"], and a replacement for ["y"]. *)
Definition old_xy : Block :=
  [mkColumnWithTypeAndName (mkSized 10 100 128) "UInt64" "x";
   mkColumnWithTypeAndName (mkSized 10 40 64) "UInt32" "y"].

Definition new_y : Block :=
  [mkColumnWithTypeAndName (mkSized 10 44 64) "UInt32" "y"].

(** The request for the plain column ["x"]. *)
Definition request_x : NamesAndTypesList :=
  [mkNameAndTypePair "x" None "UInt64"].





(** A block with a column the table does not have. *)
Definition block_z : Block :=
  [mkColumnWithTypeAndName (mkSized 1 8 16) "UInt64" "z"].



End FixtureMore.

(** ** SSHPublicKey: a wrapper around a [libssh] key *)

Module SSH.

Inductive ErrorCode : Set :=
| SSH_EXCEPTION
| LOGICAL_ERROR
| BAD_ARGUMENTS.

Record Exception := mkException {
  message : string;
  code : ErrorCode
}.

(** How a call of this file ends: it returns, it throws, or (reading a
    null C string) its behaviour is undefined. *)
Inductive Result (A : Type) : Type :=
| Returned (a : A)
| Thrown (e : Exception)
| Undefined.

Arguments Returned {A} a.
Arguments Thrown {A} e.
Arguments Undefined {A}.

(** The functions and constants of [libssh] this file uses. An [ssh_key]
    is a pointer: [None] is the null pointer. The import and export
    functions return their code together with what they leave in their
    output parameter. *)
Class LibSSH := {
  ssh_key_struct : Type;
  ssh_keytypes_e : Type;
  SSH_OK : Z;
  SSH_EOF : Z;
  ssh_key_dup : option ssh_key_struct -> option ssh_key_struct;
  ssh_key_cmp : option ssh_key_struct -> option ssh_key_struct -> Z;
  ssh_key_type_from_name : string -> ssh_keytypes_e;
  ssh_pki_import_pubkey_base64 :
    string -> ssh_keytypes_e -> Z * option ssh_key_struct;
  ssh_pki_import_pubkey_file : string -> Z * option ssh_key_struct;
  ssh_pki_export_pubkey_base64 : option ssh_key_struct -> Z * option string
}.

(** The two deleters a wrapper can carry. *)
Inductive Deleter : Set :=
| deleter
| disabledDeleter.

Section SSHPublicKey.
Context `{LibSSH}.

Definition ssh_key : Type := option ssh_key_struct.

(** The object: its [unique_ptr], that is the pointer and the deleter. *)
Record SSHPublicKey := mkSSHPublicKey {
  key : ssh_key;
  key_deleter : Deleter
}.

Definition get (this : SSHPublicKey) : ssh_key := key this.

(** [SSHPublicKey(ssh_key key_, bool own)]; [own] defaults to [true]. *)
Definition construct (key_ : ssh_key) (own : bool) : Result SSHPublicKey :=
  let this := mkSSHPublicKey key_ (if own then deleter else disabledDeleter) in
  if bool_decide (key this = None)
  then Thrown (mkException "No ssh_key provided in explicit constructor"
                 LOGICAL_ERROR)
  else Returned this.

(** The copy constructor. *)
Definition copy (other : SSHPublicKey) : Result SSHPublicKey :=
  let this := mkSSHPublicKey (ssh_key_dup (get other)) deleter in
  if bool_decide (key this = None)
  then Thrown (mkException "Failed to duplicate ssh_key" SSH_EXCEPTION)
  else Returned this.

(** The objects of a program, by address: an address is a position in
    this list, and a new object is placed at its end. Assignments and
    moves act on objects that exist, so they take addresses. *)
Definition Objects : Type := list SSHPublicKey.

(** Copy assignment [*this = other] between the objects at two
    addresses; [this != &other] compares the addresses. [reset] replaces
    the pointer and keeps the deleter. *)
Definition operator_assign (this other : nat) (objects : Objects)
    : Result Objects :=
  match objects !! this, objects !! other with
  | Some target, Some source =>
      if negb (bool_decide (this = other))
      then
        let new_key := ssh_key_dup (get source) in
        if bool_decide (new_key = None)
        then Thrown (mkException "Failed to duplicate ssh_key" SSH_EXCEPTION)
        else Returned (<[this := mkSSHPublicKey new_key (key_deleter target)]>
                         objects)
      else Returned objects
  | _, _ => Undefined
  end.

(** The defaulted move constructor moves the [unique_ptr] member: the
    new object takes the pointer and the deleter, and the source is left
    holding the null pointer. *)
Definition move (other : nat) (objects : Objects) : Result Objects :=
  match objects !! other with
  | Some source =>
      Returned (<[other := mkSSHPublicKey None (key_deleter source)]> objects
                ++ [mkSSHPublicKey (key source) (key_deleter source)])
  | None => Undefined
  end.

(** The defaulted move assignment. [key = std::move(other.key)] is
    [reset(other.key.release())] followed by the assignment of the
    deleter; on one and the same object it changes nothing. *)
Definition operator_move_assign (this other : nat) (objects : Objects)
    : Result Objects :=
  match objects !! this, objects !! other with
  | Some target, Some source =>
      if bool_decide (this = other)
      then Returned objects
      else Returned (<[other := mkSSHPublicKey None (key_deleter source)]>
                       (<[this := mkSSHPublicKey (key source)
                                    (key_deleter source)]> objects))
  | _, _ => Undefined
  end.

Definition isEqual (this other : SSHPublicKey) : bool :=
  let rc := ssh_key_cmp (key this) (get other) in
  (rc =? 0)%Z.

Definition operator_eq (this other : SSHPublicKey) : bool :=
  isEqual this other.

(** The line feed of the escape [\n]. *)
Definition LF : string := String (Ascii.ascii_of_nat 10) "".

Definition createFromBase64 (base64 key_type : string)
    : Result SSHPublicKey :=
  let '(rc, key) :=
    ssh_pki_import_pubkey_base64 base64 (ssh_key_type_from_name key_type) in
  if negb (rc =? SSH_OK)%Z
  then Thrown (mkException
         ("Failed importing public key from base64 format." +:+ LF
            +:+ "                Key: " +:+ base64 +:+ LF
            +:+ "                Type: " +:+ key_type)
         SSH_EXCEPTION)
  else construct key true.

Definition createFromFile (filename : string) : Result SSHPublicKey :=
  let '(rc, key) := ssh_pki_import_pubkey_file filename in
  if negb (rc =? SSH_OK)%Z
  then
    if (rc =? SSH_EOF)%Z
    then Thrown (mkException
           ("Can't import ssh public key from file " +:+ filename
              +:+ " as it doesn't exist or permission denied")
           BAD_ARGUMENTS)
    else Thrown (mkException
           ("Can't import ssh public key from file " +:+ filename)
           SSH_EXCEPTION)
  else construct key true.

Definition createNonOwning (key : ssh_key) : Result SSHPublicKey :=
  construct key false.

Definition getBase64Representation (this : SSHPublicKey) : Result string :=
  let '(rc, buf) := ssh_pki_export_pubkey_base64 (key this) in
  if negb (rc =? SSH_OK)%Z
  then Thrown (mkException "Failed to export public key to base64"
                 SSH_EXCEPTION)
  else match buf with
       | Some text => Returned text
       | None => Undefined
       end.

(** The operations of the class that make or change objects. *)
Inductive Op : Type :=
| Construct (key_ : ssh_key) (own : bool)
| Copy (other : nat)
| CopyAssign (this other : nat)
| Move (other : nat)
| MoveAssign (this other : nat)
| CreateFromBase64 (base64 key_type : string)
| CreateFromFile (filename : string)
| CreateNonOwning (key_ : ssh_key).

(** The object a constructor or factory returned is placed at the next
    free address. *)
Definition emplace (made : Result SSHPublicKey) (objects : Objects)
    : Result Objects :=
  match made with
  | Returned this => Returned (objects ++ [this])
  | Thrown e => Thrown e
  | Undefined => Undefined
  end.

Definition perform (op : Op) (objects : Objects) : Result Objects :=
  match op with
  | Construct key_ own => emplace (construct key_ own) objects
  | Copy other =>
      match objects !! other with
      | Some source => emplace (copy source) objects
      | None => Undefined
      end
  | CopyAssign this other => operator_assign this other objects
  | Move other => move other objects
  | MoveAssign this other => operator_move_assign this other objects
  | CreateFromBase64 base64 key_type =>
      emplace (createFromBase64 base64 key_type) objects
  | CreateFromFile filename => emplace (createFromFile filename) objects
  | CreateNonOwning key_ => emplace (createNonOwning key_) objects
  end.

(** Operations one after the other; the first that does not return ends
    the run. *)
Fixpoint perform_all (ops : list Op) (objects : Objects) : Result Objects :=
  match ops with
  | [] => Returned objects
  | op :: rest =>
      match perform op objects with
      | Returned objects => perform_all rest objects
      | Thrown e => Thrown e
      | Undefined => Undefined
      end
  end.

(** Whether an operation that returns has made a new object. *)
Definition creates (op : Op) : bool :=
  match op with
  | CopyAssign _ _ | MoveAssign _ _ => false
  | _ => true
  end.

(** The addresses that take part in a move, as source or destination,
    when [next] is the next free address. *)
Definition moved_by (op : Op) (next : nat) : list nat :=
  match op with
  | Move other => [other; next]
  | MoveAssign this other => [this; other]
  | _ => []
  end.

Fixpoint moved (ops : list Op) (next : nat) : list nat :=
  match ops with
  | [] => []
  | op :: rest =>
      moved_by op next ++ moved rest (if creates op then S next else next)
  end.

End SSHPublicKey.
End SSH.

(** A stand-in for [libssh], for examples: a key is its text, the import
    functions accept every non-empty text, duplication always works. *)
Module FixtureSSH.
Import SSH.

Definition import (text : string) : Z * option string :=
  if bool_decide (text = "") then (-1, None)%Z else (0%Z, Some text).

#[export] Instance libssh : LibSSH := {|
  ssh_key_struct := string;
  ssh_keytypes_e := string;
  SSH_OK := 0;
  SSH_EOF := -127;
  ssh_key_dup := fun k => k;
  ssh_key_cmp := fun a b => if bool_decide (a = b) then 0%Z else 1%Z;
  ssh_key_type_from_name := fun n => n;
  ssh_pki_import_pubkey_base64 := fun text _ => import text;
  ssh_pki_import_pubkey_file := import;
  ssh_pki_export_pubkey_base64 :=
    fun k => match k with
             | Some text => (0%Z, Some text)
             | None => ((-1)%Z, None)
             end
|}.

End FixtureSSH.

(** ** Further vocabulary: projections, repeated calls, sessions *)

(** The column names and the column types of a block, in order. *)
Definition block_names `{ColumnTypes} (b : Block) : list string := name <$> b.
Definition block_types `{ColumnTypes} (b : Block) : list DataType := type <$> b.

(** The chunk [generate] builds from the block it has claimed: the
    required columns in the order they were asked for, with the row count
    of the block. *)
Definition project `{Externals} (names_and_types : NamesAndTypesList)
    (src_block : Block) : Outcome Chunk :=
  columns ← mapM (MemorySource.required_column src_block) names_and_types;
  mret (mkChunk columns (rows src_block)).

(** The chunk a scan of [column_names] makes of a block: the projection
    onto the requested columns, described as the metadata describes
    them. *)
Definition scan_chunk `{Externals} (metadata_snapshot : StorageInMemoryMetadata)
    (column_names : Names) (block : Block) : Outcome Chunk :=
  names_and_types ← addTypes metadata_snapshot column_names;
  project names_and_types block.



(** The column that [updateBlockData] leaves in the place of [c] when it
    is given [new_block]: the replacement of the same name, if there is
    one, under the type and name [c] had. *)
Definition replaced_by `{ColumnTypes} (new_block : Block)
    (c : ColumnWithTypeAndName) : ColumnWithTypeAndName :=
  match list_find (fun it => name it = name c) new_block with
  | Some (_, it) => mkColumnWithTypeAndName (column it) (type c) (name c)
  | None => c
  end.

(** One insert session as the engine drives it: [write] opens the stream,
    every block goes through the stream's [write], and [writeSuffix]
    closes the session. An exception ends the session where it is
    thrown. *)
Definition insert_session `{Externals}
    (metadata_snapshot : StorageInMemoryMetadata) (blocks : Blocks)
    : Storage.M unit :=
  stream ← StorageAggregatingMemory.write metadata_snapshot;
  stream ← write_all stream blocks;
  AggregatingOutputStream.writeSuffix stream.

(** The operations on a table that touch its counters, other than
    mutations. *)
Inductive TableOp `{ColumnTypes} : Type :=
| Insert (metadata_snapshot : StorageInMemoryMetadata) (blocks : Blocks)
| Drop
| Truncate.

Definition apply_op `{Externals} (op : TableOp) : Storage.M unit :=
  match op with
  | Insert metadata_snapshot blocks => insert_session metadata_snapshot blocks
  | Drop => StorageAggregatingMemory.drop
  | Truncate => StorageAggregatingMemory.truncate
  end.

(** Operations one after the other; the first that fails ends the run. *)
Fixpoint apply_ops `{Externals} (ops : list TableOp) : Storage.M unit :=
  match ops with
  | [] => mret tt
  | op :: rest => _ ← apply_op op; apply_ops rest
  end.

(** The counters agree with the published sequence: rows with the summed
    [rows()], bytes with the summed [allocatedBytes()], in [size_t]. *)
Definition counters_consistent `{Externals} (s : Storage.t) : Prop :=
  Storage.total_size_rows s = wrap64 (total rows (Storage.data s))
  /\ Storage.total_size_bytes s
     = wrap64 (total allocatedBytes (Storage.data s)).

(** * Properties *)

(** ** The NONE codec *)

Module CodecNoneFacts.
Import CompressionCodecNone.

Lemma memcpy_Done dest src n :
  (N.to_nat n <= length src)%nat -> (N.to_nat n <= length dest)%nat ->
  memcpy dest src n = Done (take (N.to_nat n) src ++ drop (N.to_nat n) dest).
Proof.
  intros Hs Hd. unfold memcpy.
  rewrite bool_decide_eq_true_2; [reflexivity | split; assumption].
Qed.

Lemma memcpy_not_Thrown dest src n e : memcpy dest src n <> Thrown e.
Proof. unfold memcpy. case_bool_decide; discriminate. Qed.

Lemma take_memcpy_result (dest src : list Byte.byte) k :
  (k <= length src)%nat ->
  take k (take k src ++ drop k dest) = take k src.
Proof.
  intros Hk. rewrite take_app_le by (rewrite length_take; lia).
  rewrite take_take. f_equal. lia.
Qed.

Lemma drop_memcpy_result (dest src : list Byte.byte) k :
  (k <= length src)%nat ->
  drop k (take k src ++ drop k dest) = drop k dest.
Proof.
  intros Hk. rewrite drop_app_length'; [reflexivity |].
  rewrite length_take. lia.
Qed.

(** C8. Decoding with the NONE codec, on buffers that hold the sizes
    passed with them: it throws CORRUPTED_DATA exactly when the declared
    uncompressed size differs from the source size; when the two sizes
    agree it returns, the first [uncompressed_size] bytes of the
    destination are the bytes of the source, and the destination is
    untouched beyond them. *)
Theorem doDecompressData_corrupted_iff_size_mismatch
    (source dest : list Byte.byte) (source_size uncompressed_size : N) :
  (N.to_nat source_size <= length source)%nat ->
  (N.to_nat uncompressed_size <= length dest)%nat ->
  (fails_with ErrorCodes.CORRUPTED_DATA
     (doDecompressData source source_size dest uncompressed_size)
   <-> source_size <> uncompressed_size)
  /\ (source_size = uncompressed_size ->
      exists decoded,
        doDecompressData source source_size dest uncompressed_size
          = Done decoded
        /\ take (N.to_nat uncompressed_size) decoded
           = take (N.to_nat source_size) source
        /\ drop (N.to_nat uncompressed_size) decoded
           = drop (N.to_nat uncompressed_size) dest
        /\ length decoded = length dest).
Proof.
  intros Hsrc Hdst. unfold doDecompressData.
  destruct (N.eqb_spec source_size uncompressed_size) as [Heq | Hne]; simpl.
  - subst uncompressed_size. split.
    + split; [| congruence].
      intros (e & He & _). exfalso. exact (memcpy_not_Thrown _ _ _ _ He).
    + intros _. rewrite memcpy_Done by assumption.
      eexists. split; [reflexivity |].
      split; [apply take_memcpy_result; assumption |].
      split; [apply drop_memcpy_result; assumption |].
      rewrite length_app, length_take, length_drop. lia.
  - split; [| congruence].
    split; [intros _; assumption |].
    intros _. eexists. split; [reflexivity | reflexivity].
Qed.

Lemma doDecompressData_corrupted_iff_size_mismatch_witness :
  let source := [Byte.x61; Byte.x62; Byte.x63] in
  let dest := [Byte.x00; Byte.x00; Byte.x00; Byte.xff] in
  (fails_with ErrorCodes.CORRUPTED_DATA (doDecompressData source 3 dest 3)
   <-> 3 <> 3)
  /\ (3 = 3 ->
      exists decoded,
        doDecompressData source 3 dest 3 = Done decoded
        /\ take (N.to_nat 3) decoded = take (N.to_nat 3) source
        /\ drop (N.to_nat 3) decoded = drop (N.to_nat 3) dest
        /\ length decoded = length dest).
Proof.
  intros source dest.
  apply (doDecompressData_corrupted_iff_size_mismatch source dest 3 3);
    simpl; lia.
Defined.

(** C10. Compression with the NONE codec copies the [n] bytes of [x]
    unchanged into the destination and returns [n]; decoding that output
    with declared size [n] returns and yields exactly [x]. *)
Theorem none_codec_round_trip (x dest dest2 : list Byte.byte) :
  (length x <= length dest)%nat ->
  (length x <= length dest2)%nat ->
  let n := N.of_nat (length x) in
  exists compressed,
    doCompressData x n dest = Done (compressed, n)
    /\ take (length x) compressed = x
    /\ exists decoded,
         doDecompressData compressed n dest2 n = Done decoded
         /\ take (length x) decoded = x.
Proof.
  intros Hd Hd2 n. unfold doCompressData, doDecompressData.
  rewrite N.eqb_refl. simpl.
  assert (Hn : N.to_nat n = length x) by (unfold n; lia).
  rewrite memcpy_Done by lia. rewrite Hn.
  eexists. split; [reflexivity |].
  assert (Hx : take (length x) (take (length x) x ++ drop (length x) dest) = x).
  { rewrite take_memcpy_result by lia. apply firstn_all. }
  split; [exact Hx |].
  rewrite memcpy_Done; rewrite ?Hn.
  - eexists. split; [reflexivity |].
    rewrite take_memcpy_result.
    + exact Hx.
    + rewrite length_app, length_take, length_drop. lia.
  - rewrite length_app, length_take, length_drop. lia.
  - lia.
Qed.

Lemma none_codec_round_trip_witness :
  let x := [Byte.x68; Byte.x69] in
  let dest := [Byte.x00; Byte.x00; Byte.x00] in
  exists compressed,
    doCompressData x 2 dest = Done (compressed, 2)
    /\ take 2 compressed = x
    /\ exists decoded,
         doDecompressData compressed 2 dest 2 = Done decoded
         /\ take 2 decoded = x.
Proof.
  intros x dest.
  apply (none_codec_round_trip x dest dest); simpl; lia.
Defined.

End CodecNoneFacts.

(** ** Arithmetic of the counters *)

Section Counters.
Context `{Externals}.

Lemma wrap64_add_l a b : wrap64 (wrap64 a + b) = wrap64 (a + b).
Proof. unfold wrap64. apply N.Div0.add_mod_idemp_l. Qed.

Lemma wrap64_small a : a < 2 ^ SIZE_WIDTH -> wrap64 a = a.
Proof. intros Ha. unfold wrap64. apply N.mod_small. exact Ha. Qed.

Lemma wrap64_bound a : wrap64 a < 2 ^ SIZE_WIDTH.
Proof. unfold wrap64. apply N.mod_lt. discriminate. Qed.

Lemma total_app f (xs ys : Blocks) :
  total f (xs ++ ys) = total f xs + total f ys.
Proof.
  induction xs as [| x xs IH]; simpl; [reflexivity |].
  unfold total in *. simpl. rewrite IH. lia.
Qed.

(** Two running sums kept in [size_t] variables by a loop over blocks. *)
Lemma foldl_two_sums (f g : Block -> N) (blocks : Blocks) a b :
  foldl (fun '(x, y) block => (wrap64 (x + f block), wrap64 (y + g block)))
        (wrap64 a, wrap64 b) blocks
  = (wrap64 (a + total f blocks), wrap64 (b + total g blocks)).
Proof.
  revert a b. induction blocks as [| block blocks IH]; intros a b.
  - simpl. unfold total. simpl. rewrite !N.add_0_r. reflexivity.
  - simpl. rewrite !wrap64_add_l. rewrite IH.
    unfold total. simpl. f_equal; f_equal; lia.
Qed.

Lemma inserted_spec (blocks : Blocks) :
  AggregatingOutputStream.inserted blocks
  = (wrap64 (total allocatedBytes blocks), wrap64 (total rows blocks)).
Proof.
  unfold AggregatingOutputStream.inserted.
  exact (foldl_two_sums allocatedBytes rows blocks 0 0).
Qed.

Lemma summed_spec (new_data : Blocks) :
  StorageAggregatingMemory.summed new_data
  = (wrap64 (total rows new_data), wrap64 (total bytes new_data)).
Proof.
  unfold StorageAggregatingMemory.summed.
  exact (foldl_two_sums rows bytes new_data 0 0).
Qed.

Lemma wrap64_add_r a b : wrap64 (a + wrap64 b) = wrap64 (a + b).
Proof. unfold wrap64. apply N.Div0.add_mod_idemp_r. Qed.

End Counters.

(** ** Unfolding the storage monad *)

Ltac storage_unfold :=
  unfold mbind, mret, storage_mbind, storage_ret, outcome_mbind, outcome_ret,
    Storage.bind, Storage.ret, Storage.lift, outcome_bind,
    Storage.data_get, Storage.data_set,
    Storage.total_size_bytes_store, Storage.total_size_rows_store,
    Storage.total_size_bytes_fetch_add, Storage.total_size_rows_fetch_add,
    Storage.total_size_bytes_load, Storage.total_size_rows_load,
    Storage.getInMemoryMetadataPtr, Storage.getStorageID in *.

(** ** Sources created by [read] *)

Section ReadFacts.
Context `{Externals}.

Lemma mapM_Done_length {A B} (f : A -> Outcome B) (l : list A) (r : list B) :
  mapM f l = Done r -> length r = length l.
Proof.
  revert r. induction l as [| a l IH]; intros r Hr; simpl in Hr.
  - unfold mret, outcome_ret in Hr. inversion Hr. reflexivity.
  - unfold mbind, outcome_mbind, outcome_bind in Hr.
    destruct (f a) as [b | | |]; try discriminate.
    fold (@mapM Outcome _ _ A B f l) in Hr.
    destruct (mapM f l) as [bs | | |] eqn:Hbs; try discriminate.
    unfold mret, outcome_ret in Hr. inversion Hr; subst.
    simpl. f_equal. apply IH. reflexivity.
Qed.

Lemma mapM_Done_Forall {A B} (f : A -> Outcome B) (P : B -> Prop)
    (l : list A) (r : list B) :
  (forall a b, f a = Done b -> P b) ->
  mapM f l = Done r -> Forall P r.
Proof.
  intros Hf. revert r. induction l as [| a l IH]; intros r Hr; simpl in Hr.
  - unfold mret, outcome_ret in Hr. inversion Hr. constructor.
  - unfold mbind, outcome_mbind, outcome_bind in Hr.
    destruct (f a) as [b | | |] eqn:Hb; try discriminate.
    fold (@mapM Outcome _ _ A B f l) in Hr.
    destruct (mapM f l) as [bs | | |] eqn:Hbs; try discriminate.
    unfold mret, outcome_ret in Hr. inversion Hr; subst.
    constructor; [eapply Hf; eassumption | apply IH; reflexivity].
Qed.

Lemma clamped_min num_streams size :
  num_streams < 2 ^ UINT_WIDTH -> clamped num_streams size = N.min num_streams size.
Proof.
  intros Hp. unfold clamped.
  destruct (N.ltb_spec size num_streams) as [Hlt | Hge].
  - unfold wrap32. rewrite N.mod_small by lia. lia.
  - lia.
Qed.

(** What a successful [read] returns: the storage is untouched, the pipe
    holds one atomic, initially zero, and every source shares it, has no
    initializer and holds the snapshot published at the time. *)
Lemma read_Done column_names metadata_snapshot num_streams s pipe s' :
  StorageAggregatingMemory.read column_names metadata_snapshot num_streams s
    = (Done pipe, s') ->
  s' = s
  /\ atomics pipe = [0]
  /\ length (processors pipe)
     = N.to_nat (clamped num_streams (N.of_nat (length (Storage.data s))))
  /\ Forall (fun src =>
               MemorySource.data src = Some (Storage.data s)
               /\ MemorySource.parallel_execution_index src = Some 0%nat
               /\ MemorySource.initializer_func src = None)
            (processors pipe).
Proof.
  unfold StorageAggregatingMemory.read. storage_unfold. simpl.
  destruct (check_names _ _ _) as [[] | | |]; try discriminate.
  fold (clamped num_streams (N.of_nat (length (Storage.data s)))).
  destruct (mapM _ _) as [pipes | | |] eqn:Hpipes; try discriminate.
  intros Hr. inversion Hr; subst. simpl.
  split; [reflexivity |]. split; [reflexivity |]. split.
  - apply mapM_Done_length in Hpipes. rewrite Hpipes. apply length_seq.
  - eapply mapM_Done_Forall; [| exact Hpipes].
    intros a src Hsrc. unfold MemorySource.create in Hsrc.
    unfold mbind, mret, outcome_mbind, outcome_ret, outcome_bind in Hsrc.
    destruct (getSampleBlockForColumns _ _ _); try discriminate.
    destruct (addTypes _ _); try discriminate.
    inversion Hsrc; subst. simpl. auto.
Qed.

(** Every source of the pipe carries the descriptors [addTypes] gives
    for the requested names. *)
Lemma read_names_and_types column_names metadata_snapshot num_streams s pipe s' :
  StorageAggregatingMemory.read column_names metadata_snapshot num_streams s
    = (Done pipe, s') ->
  Forall (fun src =>
            addTypes metadata_snapshot column_names
            = Done (MemorySource.column_names_and_types src))
         (processors pipe).
Proof.
  unfold StorageAggregatingMemory.read. storage_unfold. simpl.
  destruct (check_names _ _ _) as [[] | | |]; try discriminate.
  destruct (mapM _ _) as [pipes | | |] eqn:Hpipes; try discriminate.
  intros Hr. inversion Hr; subst. simpl.
  eapply mapM_Done_Forall; [| exact Hpipes].
  intros a src Hsrc. unfold MemorySource.create in Hsrc.
  unfold mbind, mret, outcome_mbind, outcome_ret, outcome_bind in Hsrc.
  destruct (getSampleBlockForColumns _ _ _); try discriminate.
  destruct (addTypes _ _); try discriminate.
  inversion Hsrc; subst. reflexivity.
Qed.

(** C7. A read with requested parallelism [P] (an [unsigned]) over a
    store publishing [N] batches creates exactly [min(P, N)] sources;
    with [N = 0] it creates none. *)
Theorem read_creates_min_sources
    column_names metadata_snapshot (P : N) s pipe s' :
  P < 2 ^ UINT_WIDTH ->
  StorageAggregatingMemory.read column_names metadata_snapshot P s
    = (Done pipe, s') ->
  length (processors pipe)
    = N.to_nat (N.min P (N.of_nat (length (Storage.data s))))
  /\ (Storage.data s = [] -> processors pipe = []).
Proof.
  intros HP Hread.
  destruct (read_Done _ _ _ _ _ _ Hread) as (_ & _ & Hlen & _).
  rewrite clamped_min in Hlen by assumption.
  split; [exact Hlen |].
  intros Hempty. rewrite Hempty in Hlen. simpl in Hlen.
  rewrite N.min_0_r in Hlen. simpl in Hlen.
  destruct (processors pipe); [reflexivity | discriminate].
Qed.

End ReadFacts.

(** ** Drop and truncate *)

Section LifecycleFacts.
Context `{Externals}.

Lemma run_without_sources (p : Pipe) schedule :
  processors p = [] -> (run schedule p).1 = [].
Proof.
  intros Hp. induction schedule as [| w rest IH]; [reflexivity |].
  simpl. unfold step. rewrite Hp, lookup_nil.
  destruct (run rest p) as [log p'] eqn:Hrun. simpl in *. exact IH.
Qed.

Lemma read_of_empty_delivers_nothing column_names metadata_snapshot P s :
  Storage.data s = [] ->
  delivers_nothing
    (StorageAggregatingMemory.read column_names metadata_snapshot P s).
Proof.
  intros Hempty. unfold delivers_nothing.
  unfold StorageAggregatingMemory.read. storage_unfold. simpl.
  destruct (check_names _ _ _) as [u | | |]; simpl; try exact I.
  rewrite Hempty. simpl. change (N.of_nat 0) with 0.
  replace (if 0 <? P then wrap32 0 else P) with 0
    by (destruct (N.ltb_spec 0 P); [reflexivity | lia]).
  simpl. split; [reflexivity |].
  intros schedule. apply run_without_sources. reflexivity.
Qed.

(** C9. From every store state, [drop] and [truncate] both return
    normally and leave a store whose published sequence is empty, whose
    [totalRows] and [totalBytes] are 0, and on which a scan started
    afterwards, with any columns and any parallelism, delivers no
    batch. *)
Theorem drop_and_truncate_reset_the_store (s : Storage.t) :
  Forall (fun op : Storage.M unit =>
            let s' := (op s).2 in
            (op s).1 = Done tt
            /\ Storage.data s' = []
            /\ (StorageAggregatingMemory.totalRows s').1 = Done (Some 0)
            /\ (StorageAggregatingMemory.totalBytes s').1 = Done (Some 0)
            /\ forall column_names metadata_snapshot P,
                 delivers_nothing
                   (StorageAggregatingMemory.read column_names
                      metadata_snapshot P s'))
         [StorageAggregatingMemory.drop; StorageAggregatingMemory.truncate].
Proof.
  repeat constructor;
    intros; apply read_of_empty_delivers_nothing; reflexivity.
Qed.

End LifecycleFacts.

(** ** Construction and registration *)

Section ConstructionFacts.
Context `{Externals}.

Lemma creator_is_registered (factory : StorageFactory) :
  last (registerStorageAggregatingMemory factory)
  = Some (mkEntry "AggregatingMemory" creator (mkStorageFeatures true)).
Proof. unfold registerStorageAggregatingMemory. apply last_snoc. Qed.

(** C6. Construction throws the missing-query error when the create
    query has no select; it throws the union error when the select list
    has more than one element; the creator that registration installs
    throws NUMBER_OF_ARGUMENTS_DOESNT_MATCH for every non-empty engine
    argument list. In each of these cases no storage object results. *)
Theorem construction_failures
    (table_id_ : StorageID) (columns_description_ : list (string * DataType))
    (constraints_ : list IAST) (query : ASTCreateQuery)
    (factory : StorageFactory) (args : StorageFactoryArguments) :
  (select query = None ->
   MissingDefiningQuery
     (StorageAggregatingMemory.create table_id_ columns_description_
        constraints_ query))
  /\ (forall query_select,
        select query = Some query_select ->
        (1 < length (children (list_of_selects query_select)))%nat ->
        UnsupportedUnionQuery
          (StorageAggregatingMemory.create table_id_ columns_description_
             constraints_ query))
  /\ (engine_args args <> [] ->
      exists entry,
        last (registerStorageAggregatingMemory factory) = Some entry
        /\ entry_name entry = "AggregatingMemory"
        /\ UnexpectedArguments (creator_fn entry args)
        /\ forall storage, creator_fn entry args <> Done storage).
Proof.
  split; [| split].
  - intros Hnone. unfold MissingDefiningQuery, StorageAggregatingMemory.create.
    rewrite Hnone. reflexivity.
  - intros query_select Hsome Hmany.
    unfold UnsupportedUnionQuery, StorageAggregatingMemory.create.
    rewrite Hsome.
    destruct (Nat.eqb_spec (length (children (list_of_selects query_select))) 1)
      as [Hone | _]; [lia | reflexivity].
  - intros Hargs. eexists. split; [apply creator_is_registered |].
    simpl. split; [reflexivity |].
    unfold creator. rewrite bool_decide_eq_false_2 by assumption. simpl.
    split; [| discriminate].
    eexists. split; reflexivity.
Qed.

End ConstructionFacts.

(** ** Insert sessions *)

Section AppendFacts.
Context `{Externals}.

(** No [write] call touches the storage, whether or not its check
    passes. *)
Lemma write_all_keeps_storage stream blocks s :
  (write_all stream blocks s).2 = s.
Proof.
  revert stream. induction blocks as [| block rest IH]; intros stream.
  - reflexivity.
  - simpl. unfold AggregatingOutputStream.write. storage_unfold.
    destruct (check_block _ _) as [u | | |]; simpl; try reflexivity.
    apply IH.
Qed.

Lemma write_all_accepted stream blocks s :
  Forall (fun b => check_block (AggregatingOutputStream.metadata_snapshot stream) b
                   = Done tt) blocks ->
  write_all stream blocks s
  = (Done (AggregatingOutputStream.mk
             (AggregatingOutputStream.new_blocks stream ++ blocks)
             (AggregatingOutputStream.metadata_snapshot stream)), s).
Proof.
  revert stream. induction blocks as [| block rest IH]; intros stream Hok.
  - simpl. rewrite app_nil_r. destruct stream. reflexivity.
  - inversion Hok as [| ? ? Hblock Hrest]; subst.
    simpl. unfold AggregatingOutputStream.write. storage_unfold.
    rewrite Hblock. simpl.
    specialize (IH (AggregatingOutputStream.mk
                      (AggregatingOutputStream.new_blocks stream ++ [block])
                      (AggregatingOutputStream.metadata_snapshot stream))).
    simpl in IH. storage_unfold. rewrite IH by assumption.
    rewrite <- app_assoc. reflexivity.
Qed.

Lemma writeSuffix_spec stream s :
  exists s',
    AggregatingOutputStream.writeSuffix stream s = (Done tt, s')
    /\ Storage.data s'
       = Storage.data s ++ AggregatingOutputStream.new_blocks stream
    /\ Storage.total_size_rows s'
       = wrap64 (Storage.total_size_rows s
                 + total rows (AggregatingOutputStream.new_blocks stream))
    /\ Storage.total_size_bytes s'
       = wrap64 (Storage.total_size_bytes s
                 + total allocatedBytes
                     (AggregatingOutputStream.new_blocks stream)).
Proof.
  unfold AggregatingOutputStream.writeSuffix.
  rewrite inserted_spec. storage_unfold. simpl.
  eexists. split; [reflexivity |]. simpl.
  rewrite !wrap64_add_r. auto.
Qed.

(** C4. A write session on a store publishing [S], whose blocks
    [b1..bk] all pass the block check. Whatever blocks are offered, the
    [write] calls leave the store as it was (first part). When every
    block is accepted the stream buffers exactly [b1..bk], and
    [writeSuffix] then returns and publishes [S ++ [b1..bk]], with
    [totalRows] increased by the rows of [b1..bk] and [totalBytes] by
    their allocated bytes, in [size_t] arithmetic. *)
Theorem write_session_appends
    (metadata_snapshot : StorageInMemoryMetadata) (s : Storage.t)
    (blocks : Blocks) :
  Forall (fun b => check_block metadata_snapshot b = Done tt) blocks ->
  let session :=
    stream ← StorageAggregatingMemory.write metadata_snapshot;
    write_all stream blocks in
  (forall offered,
      ((stream ← StorageAggregatingMemory.write metadata_snapshot;
        write_all stream offered) s).2 = s)
  /\ exists stream s',
       session s = (Done stream, s)
       /\ AggregatingOutputStream.new_blocks stream = blocks
       /\ AggregatingOutputStream.writeSuffix stream s = (Done tt, s')
       /\ Storage.data s' = Storage.data s ++ blocks
       /\ (StorageAggregatingMemory.totalRows s').1
          = Done (Some (wrap64 (Storage.total_size_rows s + total rows blocks)))
       /\ (StorageAggregatingMemory.totalBytes s').1
          = Done (Some (wrap64 (Storage.total_size_bytes s
                                + total allocatedBytes blocks))).
Proof.
  intros Hok session. split.
  - intros offered. unfold StorageAggregatingMemory.write. storage_unfold.
    apply write_all_keeps_storage.
  - unfold session, StorageAggregatingMemory.write. storage_unfold.
    rewrite write_all_accepted by exact Hok. simpl.
    destruct (writeSuffix_spec
                (AggregatingOutputStream.mk blocks metadata_snapshot) s)
      as (s' & Hsuffix & Hdata & Hrows & Hbytes).
    simpl in *.
    exists (AggregatingOutputStream.mk blocks metadata_snapshot), s'.
    split; [reflexivity |]. split; [reflexivity |].
    split; [exact Hsuffix |]. split; [exact Hdata |].
    unfold StorageAggregatingMemory.totalRows,
      StorageAggregatingMemory.totalBytes.
    storage_unfold. simpl. rewrite Hrows, Hbytes. auto.
Qed.

End AppendFacts.

(** ** Mutations *)

Section MutateFacts.
Context `{Externals}.

Lemma getByName_throws_not_found (b : Block) n e :
  getByName b n = Thrown e -> code e = ErrorCodes.NOT_FOUND_COLUMN_IN_BLOCK.
Proof.
  unfold getByName. destruct (list_find _ b); [discriminate |].
  intros He. inversion He. reflexivity.
Qed.

(** [updateBlockData] returns or throws the error of [getByName]. *)
Lemma updateBlockData_cases (new_block old_block : Block) :
  match updateBlockData old_block new_block with
  | Done _ => True
  | Thrown e => code e = ErrorCodes.NOT_FOUND_COLUMN_IN_BLOCK
  | _ => False
  end.
Proof.
  revert old_block. induction new_block as [| it rest IH]; intros old_block.
  - exact I.
  - simpl. unfold mbind, outcome_mbind, outcome_bind.
    destruct (getByName old_block (name it)) as [[i c] | e | |] eqn:Hget.
    + apply IH.
    + eapply getByName_throws_not_found. exact Hget.
    + unfold getByName in Hget. destruct (list_find _ _); discriminate.
    + unfold getByName in Hget. destruct (list_find _ _); discriminate.
Qed.

Lemma update_blocks_keeps_storage NDEBUG data_it out_it s :
  (StorageAggregatingMemory.update_blocks NDEBUG data_it out_it s).2 = s.
Proof.
  revert out_it. induction data_it as [| old_block rest IH]; intros out_it.
  - reflexivity.
  - simpl. unfold Storage.assert. storage_unfold.
    destruct NDEBUG, out_it as [| new_block out_next]; simpl; try reflexivity.
    all: destruct (updateBlockData old_block new_block); simpl;
      try reflexivity.
    all: specialize (IH out_next);
      destruct (StorageAggregatingMemory.update_blocks _ rest out_next s)
        as [[[upd out_end] | | |] s1]; simpl in *; congruence.
Qed.

(** With the assertion compiled in, the loop returns only when the
    replacement sequence is at least as long as the published one, hands
    back what is left of it, and otherwise ends in the failed assertion
    or in the exception of [updateBlockData]; it is never undefined. *)
Lemma update_blocks_checked data_it out_it s :
  match (StorageAggregatingMemory.update_blocks false data_it out_it s).1 with
  | Done (updated, out_end) =>
      length updated = length data_it
      /\ length out_it = (length data_it + length out_end)%nat
  | Thrown e => code e = ErrorCodes.NOT_FOUND_COLUMN_IN_BLOCK
  | Aborted _ => (length out_it < length data_it)%nat
  | Undefined => False
  end.
Proof.
  revert out_it. induction data_it as [| old_block rest IH]; intros out_it.
  - simpl. auto.
  - simpl. unfold Storage.assert. storage_unfold.
    destruct out_it as [| new_block out_next]; simpl; [lia |].
    pose proof (updateBlockData_cases new_block old_block) as Hupd.
    destruct (updateBlockData old_block new_block) as [updated | e | |];
      simpl; try assumption; try contradiction.
    specialize (IH out_next).
    destruct (StorageAggregatingMemory.update_blocks false rest out_next s)
      as [[[upd out_end] | e | x |] s1]; simpl in *;
      try assumption; try lia.
Qed.

(** The loop throws nothing but the error of [updateBlockData]. *)
Lemma update_blocks_throws NDEBUG data_it : forall out_it s e,
  (StorageAggregatingMemory.update_blocks NDEBUG data_it out_it s).1 = Thrown e ->
  code e = ErrorCodes.NOT_FOUND_COLUMN_IN_BLOCK.
Proof.
  induction data_it as [| old_block rest IH]; intros out_it s e.
  - discriminate.
  - simpl. unfold Storage.assert. storage_unfold.
    destruct NDEBUG, out_it as [| new_block out_next]; simpl;
      try discriminate.
    all: pose proof (updateBlockData_cases new_block old_block) as Hupd.
    all: destruct (updateBlockData old_block new_block) as [updated | e0 | |];
      simpl; try discriminate; try contradiction.
    all: try (intros He; inversion He; subst; exact Hupd).
    all: specialize (IH out_next s);
      destruct (StorageAggregatingMemory.update_blocks _ rest out_next s)
        as [[[upd out_end] | e1 | x |] s1]; simpl in *; try discriminate.
    all: intros He; inversion He; subst; apply IH; reflexivity.
Qed.

(** A mutation that throws leaves the storage object as it found it, in
    every build: all its stores come last. The exception is the one of
    the interpreter's stream or, where only some columns are affected,
    the error of [updateBlockData]. *)
Lemma thrown_mutation_keeps_storage NDEBUG interpreter s e :
  (StorageAggregatingMemory.mutate NDEBUG interpreter s).1 = Thrown e ->
  (StorageAggregatingMemory.mutate NDEBUG interpreter s).2 = s
  /\ (execute interpreter = Thrown e
      \/ (isAffectingAllColumns interpreter = false
          /\ code e = ErrorCodes.NOT_FOUND_COLUMN_IN_BLOCK)).
Proof.
  unfold StorageAggregatingMemory.mutate. storage_unfold.
  destruct (execute interpreter) as [in_ | e0 | |]; simpl;
    try discriminate.
  2:{ intros He. inversion He; subst. auto. }
  destruct (isAffectingAllColumns interpreter); simpl.
  - destruct (StorageAggregatingMemory.summed _). simpl. discriminate.
  - pose proof (update_blocks_keeps_storage NDEBUG (Storage.data s)
                  (StorageAggregatingMemory.read_all in_) s) as Hkeep.
    pose proof (update_blocks_throws NDEBUG (Storage.data s)
                  (StorageAggregatingMemory.read_all in_) s) as Hcode.
    destruct (StorageAggregatingMemory.update_blocks _ _ _ s)
      as [[[updated out_end] | e1 | |] s1]; simpl in *; subst;
      try discriminate.
    + unfold Storage.assert. storage_unfold.
      destruct NDEBUG; simpl.
      * destruct (StorageAggregatingMemory.summed _). simpl. discriminate.
      * destruct (bool_decide _); simpl; [| discriminate].
        destruct (StorageAggregatingMemory.summed _). simpl. discriminate.
    + intros He. inversion He; subst. split; [reflexivity |].
      right. split; [reflexivity |]. apply Hcode. reflexivity.
Qed.

(** Where a mutation returns, it has published a sequence and stored the
    summed rows of that sequence in [total_size_bytes] and its summed
    bytes in [total_size_rows]. *)
Lemma mutate_stores_sums_crosswise NDEBUG interpreter s :
  (StorageAggregatingMemory.mutate NDEBUG interpreter s).1 = Done tt ->
  let s' := (StorageAggregatingMemory.mutate NDEBUG interpreter s).2 in
  Storage.total_size_bytes s' = wrap64 (total rows (Storage.data s'))
  /\ Storage.total_size_rows s' = wrap64 (total bytes (Storage.data s')).
Proof.
  unfold StorageAggregatingMemory.mutate. storage_unfold.
  destruct (execute interpreter) as [in_ | | |]; simpl; try discriminate.
  destruct (isAffectingAllColumns interpreter); simpl.
  - rewrite summed_spec. simpl. auto.
  - destruct (StorageAggregatingMemory.update_blocks _ _ _ s)
      as [[[updated out_end] | | |] s1]; simpl; try discriminate.
    unfold Storage.assert. storage_unfold.
    destruct NDEBUG; simpl.
    + rewrite summed_spec. simpl. auto.
    + destruct (bool_decide _); simpl; [| discriminate].
      rewrite summed_spec. simpl. auto.
Qed.

End MutateFacts.

Section MutateChecked.
Context `{Externals}.

(** The length check in a build with assertions. Where [assert] is
    active ([NDEBUG] not defined), a mutation that affects only some
    columns and whose replacement sequence differs in length from the
    published one never publishes: one of the two assertions fails,
    which aborts the process, or [updateBlockData] throws
    NOT_FOUND_COLUMN_IN_BLOCK before the length check is reached, and
    the storage object is then what it was before the mutation. *)
Theorem partial_mutation_length_mismatch_aborts
    (interpreter : MutationsInterpreter) (in_ : list Block) (s : Storage.t) :
  execute interpreter = Done in_ ->
  isAffectingAllColumns interpreter = false ->
  length (StorageAggregatingMemory.read_all in_) <> length (Storage.data s) ->
  let r := StorageAggregatingMemory.mutate false interpreter s in
  (exists assertion, r.1 = Aborted assertion)
  \/ (fails_with ErrorCodes.NOT_FOUND_COLUMN_IN_BLOCK r.1 /\ r.2 = s).
Proof.
  intros Hexec Hpartial Hlen r.
  assert (Hfail : (exists assertion, r.1 = Aborted assertion)
                  \/ fails_with ErrorCodes.NOT_FOUND_COLUMN_IN_BLOCK r.1).
  { unfold r, StorageAggregatingMemory.mutate. storage_unfold.
    rewrite Hexec, Hpartial. simpl.
    pose proof (update_blocks_checked (Storage.data s)
                  (StorageAggregatingMemory.read_all in_) s) as Hloop.
    destruct (StorageAggregatingMemory.update_blocks false _ _ s)
      as [[[updated out_end] | e | x |] s1]; simpl in *.
    - destruct Hloop as [_ Hsum].
      unfold Storage.assert. storage_unfold.
      rewrite bool_decide_eq_false_2.
      + simpl. left. eexists. reflexivity.
      + intros ->. simpl in Hsum. lia.
    - right. exists e. split; [reflexivity | exact Hloop].
    - left. eexists. reflexivity.
    - contradiction. }
  destruct Hfail as [Habort | (e & He & Hcode)]; [left; exact Habort |].
  right. split; [exists e; auto |].
  exact (proj1 (thrown_mutation_keeps_storage false interpreter s e He)).
Qed.

(** With [NDEBUG] defined, a replacement sequence longer than the
    published one is accepted: the surplus blocks are ignored. *)
Lemma unchecked_update_ignores_surplus data_it out_it surplus s updated :
  (StorageAggregatingMemory.update_blocks true data_it out_it s).1
    = Done (updated, []) ->
  (StorageAggregatingMemory.update_blocks true data_it (out_it ++ surplus) s).1
    = Done (updated, surplus).
Proof.
  revert out_it updated.
  induction data_it as [| old_block rest IH]; intros out_it updated.
  - simpl. storage_unfold. simpl. intros Hr. inversion Hr. reflexivity.
  - simpl. unfold Storage.assert. storage_unfold.
    destruct out_it as [| new_block out_next]; simpl; [discriminate |].
    destruct (updateBlockData old_block new_block); simpl; try discriminate.
    specialize (IH out_next).
    destruct (StorageAggregatingMemory.update_blocks true rest out_next s)
      as [[[upd out_end] | | |] s1]; simpl in *; try discriminate.
    intros Hr. inversion Hr; subst.
    specialize (IH upd eq_refl).
    destruct (StorageAggregatingMemory.update_blocks true rest
                (out_next ++ surplus) s)
      as [[[upd' out_end'] | | |] s2]; simpl in *; try discriminate.
    inversion IH; subst. reflexivity.
Qed.

End MutateChecked.

(** ** Scans: sources sharing one index *)

(** Rewrites the length of a [seq] in the goal to zero when [lia] can
    show it to be zero. *)
Ltac seq_length_zero :=
  match goal with
  | |- context [seq _ ?k] => replace k with 0%nat; [| lia]
  end.

Section ScanFacts.
Context `{Externals}.

Lemma shares_cursor_lookup blocks c p w src :
  shares_cursor blocks c p -> processors p !! w = Some src ->
  MemorySource.data src = Some blocks
  /\ MemorySource.parallel_execution_index src = Some 0%nat
  /\ MemorySource.initializer_func src = None.
Proof.
  intros (_ & _ & Hall) Hw.
  rewrite Forall_lookup in Hall. exact (Hall w src Hw).
Qed.

(** One call on such a pipe: the caller reads [c], the index becomes
    [c + 1] in [size_t], and nothing else changes. *)
Lemma step_shares_cursor blocks c p w src :
  shares_cursor blocks c p -> processors p !! w = Some src ->
  step w p
  = (Some (mkEvent w (Some c) (produce src c)),
     mkPipe (processors p) [wrap64 (c + 1)]).
Proof.
  intros Hp Hw.
  destruct (shares_cursor_lookup _ _ _ _ _ Hp Hw) as (Hdata & Hidx & Hinit).
  destruct Hp as (Hatomics & _ & _).
  unfold step. rewrite Hw.
  unfold MemorySource.generate_with_index, MemorySource.run_initializer.
  rewrite Hinit. unfold MemorySource.getAndIncrementExecutionIndex.
  rewrite Hidx, Hatomics. simpl. unfold produce. rewrite Hdata.
  destruct (bool_decide _);
    [| destruct (blocks !! N.to_nat c)];
    simpl; rewrite list_insert_id by exact Hw; reflexivity.
Qed.

Lemma step_without_source (p : Pipe) w :
  processors p !! w = None -> step w p = (None, p).
Proof. intros Hw. unfold step. rewrite Hw. reflexivity. Qed.

Lemma shares_cursor_next blocks c p :
  shares_cursor blocks c p ->
  shares_cursor blocks (wrap64 (c + 1)) (mkPipe (processors p) [wrap64 (c + 1)]).
Proof.
  intros (_ & _ & Hall). split; [reflexivity |].
  split; [apply wrap64_bound | exact Hall].
Qed.

(** A run on such a pipe is its [trace]. *)
Lemma run_shares_cursor blocks schedule : forall c p,
  shares_cursor blocks c p ->
  run schedule p
  = (trace (processors p) c schedule,
     mkPipe (processors p) [cursor_after (processors p) c schedule]).
Proof.
  induction schedule as [| w rest IH]; intros c p Hp.
  - simpl. destruct p as [procs atoms]. destruct Hp as (Ha & _). simpl in *.
    subst. reflexivity.
  - simpl. destruct (processors p !! w) as [src |] eqn:Hw.
    + rewrite (step_shares_cursor _ _ _ _ _ Hp Hw).
      rewrite (IH _ _ (shares_cursor_next _ _ _ Hp)). reflexivity.
    + rewrite (step_without_source _ _ Hw).
      rewrite (IH _ _ Hp). reflexivity.
Qed.

Lemma produce_inside src blocks i block :
  MemorySource.data src = Some blocks ->
  blocks !! N.to_nat i = Some block ->
  produce src i = project (MemorySource.column_names_and_types src) block.
Proof.
  intros Hdata Hb. unfold produce, project. rewrite Hdata.
  rewrite bool_decide_eq_false_2.
  - rewrite Hb. reflexivity.
  - apply lookup_lt_Some in Hb. lia.
Qed.

Lemma trace_events sources schedule : forall c e,
  e ∈ trace sources c schedule ->
  exists src i,
    sources !! worker e = Some src
    /\ current_index e = Some i
    /\ result e = produce src i.
Proof.
  induction schedule as [| w rest IH]; intros c e He; simpl in He.
  - inversion He.
  - destruct (sources !! w) as [src |] eqn:Hw.
    + apply elem_of_cons in He. destruct He as [-> | He].
      * exists src, c. simpl. auto.
      * eapply IH. exact He.
    + eapply IH. exact He.
Qed.

Lemma read_shares_cursor column_names metadata_snapshot P s pipe s' :
  StorageAggregatingMemory.read column_names metadata_snapshot P s
    = (Done pipe, s') ->
  shares_cursor (Storage.data s) 0 pipe.
Proof.
  intros Hread.
  destruct (read_Done _ _ _ _ _ _ Hread) as (_ & Ha & _ & Hall).
  split; [exact Ha |]. split; [reflexivity | exact Hall].
Qed.

End ScanFacts.

Section TraceFacts.
Context `{Externals}.
Variable sources : list MemorySource.t.
Variable blocks : Blocks.
Hypothesis sources_hold_blocks :
  Forall (fun src => MemorySource.data src = Some blocks) sources.

#[local] Abbreviation size := (N.of_nat (length blocks)).

Lemma produce_past_end src c :
  src ∈ sources -> size <= c -> produce src c = Done empty_chunk.
Proof.
  intros Hsrc Hc. rewrite Forall_forall in sources_hold_blocks.
  unfold produce. rewrite (sources_hold_blocks src Hsrc).
  rewrite bool_decide_eq_true_2; [reflexivity | exact Hc].
Qed.

Lemma cursor_after_bound schedule : forall c,
  c < 2 ^ SIZE_WIDTH -> cursor_after sources c schedule < 2 ^ SIZE_WIDTH.
Proof.
  induction schedule as [| w rest IH]; intros c Hc; simpl; [exact Hc |].
  destruct (sources !! w); [apply IH, wrap64_bound | apply IH, Hc].
Qed.

(** Past the end of the snapshot every call returns the empty chunk, for
    as long as the index does not wrap around. *)
Lemma trace_past_end schedule : forall c,
  size <= c -> c + N.of_nat (length schedule) <= 2 ^ SIZE_WIDTH ->
  Forall (fun e => result e = Done empty_chunk) (trace sources c schedule).
Proof.
  induction schedule as [| w rest IH]; intros c Hc Hwrap; simpl.
  - constructor.
  - simpl in Hwrap.
    destruct (sources !! w) as [src |] eqn:Hw.
    + constructor.
      * simpl. apply produce_past_end; [| exact Hc].
        eapply list_elem_of_lookup_2. exact Hw.
      * destruct rest as [| w' rest']; [constructor |].
        simpl in Hwrap.
        assert (Hsmall : c + 1 < 2 ^ SIZE_WIDTH) by lia.
        rewrite (wrap64_small _ Hsmall).
        apply IH; simpl; lia.
    + apply IH; [exact Hc | lia].
Qed.

(** On a schedule of existing workers, within [2^64] calls, the calls
    that return deliver the indices from [c] up to the end of the
    snapshot, in increasing order. *)
Lemma trace_deliveries schedule : forall c,
  Forall (fun w => (w < length sources)%nat) schedule ->
  c + N.of_nat (length schedule) <= 2 ^ SIZE_WIDTH ->
  Forall (fun e => exists chunk, result e = Done chunk)
         (trace sources c schedule) ->
  omap (delivered_index size) (trace sources c schedule)
  = N.of_nat <$> seq (N.to_nat c)
                   (Nat.min (N.to_nat c + length schedule) (length blocks)
                    - N.to_nat c).
Proof.
  induction schedule as [| w rest IH]; intros c Hvalid Hwrap Hdone.
  - simpl. seq_length_zero. reflexivity.
  - inversion Hvalid as [| ? ? Hw Hrest]; subst.
    apply lookup_lt_is_Some_2 in Hw. destruct Hw as [src Hw].
    simpl in *. rewrite Hw in *.
    inversion Hdone as [| ? ? [chunk Hchunk] Hdone']; subst.
    simpl in Hchunk. simpl.
    unfold delivered_index at 1. simpl. rewrite Hchunk.
    assert (Htail :
      omap (delivered_index size) (trace sources (wrap64 (c + 1)) rest)
      = N.of_nat <$> seq (S (N.to_nat c))
          (Nat.min (S (N.to_nat c) + length rest) (length blocks)
           - S (N.to_nat c))).
    { destruct rest as [| w' rest'].
      - change (length (@nil nat)) with 0%nat.
        seq_length_zero. reflexivity.
      - simpl in Hwrap.
        assert (Hsmall : c + 1 < 2 ^ SIZE_WIDTH) by lia.
        rewrite (wrap64_small _ Hsmall) in *.
        rewrite (IH (c + 1)); [| exact Hrest | simpl; lia | exact Hdone'].
        replace (N.to_nat (c + 1)) with (S (N.to_nat c)) by lia.
        reflexivity. }
    change (list_omap Event N (delivered_index size)) with
      (omap (M := list) (delivered_index size)).
    rewrite Htail.
    destruct (N.ltb_spec c (N.of_nat (length blocks))) as [Hlt | Hge].
    + replace (Nat.min (N.to_nat c + S (length rest)) (length blocks)
               - N.to_nat c)%nat
        with (S (Nat.min (S (N.to_nat c) + length rest) (length blocks)
                 - S (N.to_nat c)))%nat by lia.
      simpl. rewrite N2Nat.id. reflexivity.
    + replace (Nat.min (N.to_nat c + S (length rest)) (length blocks)
               - N.to_nat c)%nat with 0%nat by lia.
      replace (Nat.min (S (N.to_nat c) + length rest) (length blocks)
               - S (N.to_nat c))%nat with 0%nat by lia.
      reflexivity.
Qed.

(** The index of every recorded call lies between the start value and
    the number of calls made. *)
Lemma trace_index_range schedule : forall c e i,
  c + N.of_nat (length schedule) <= 2 ^ SIZE_WIDTH ->
  e ∈ trace sources c schedule -> current_index e = Some i ->
  c <= i < c + N.of_nat (length schedule).
Proof.
  induction schedule as [| w rest IH]; intros c e i Hwrap He Hi.
  - inversion He.
  - cbn [trace] in He.
    assert (Hrest : rest = [] \/ c + 1 < 2 ^ SIZE_WIDTH).
    { destruct rest as [| w' rest']; [left; reflexivity | right].
      change (length (w :: w' :: rest')) with (S (S (length rest'))) in Hwrap.
      lia. }
    change (length (w :: rest)) with (S (length rest)) in *.
    destruct (sources !! w) as [src |].
    + apply elem_of_cons in He. destruct He as [-> | He].
      * simpl in Hi. inversion Hi; subst. lia.
      * destruct Hrest as [-> | Hsmall]; [inversion He |].
        rewrite (wrap64_small _ Hsmall) in He.
        assert (c + 1 <= i < c + 1 + N.of_nat (length rest))
          by (apply (IH (c + 1) e i); [lia | exact He | exact Hi]).
        lia.
    + assert (c <= i < c + N.of_nat (length rest))
        by (apply (IH c e i); [lia | exact He | exact Hi]).
      lia.
Qed.

Lemma trace_workers_valid schedule : forall c,
  Forall (fun w => (w < length sources)%nat) schedule ->
  Forall (fun e => (worker e < length sources)%nat) (trace sources c schedule).
Proof.
  induction schedule as [| w rest IH]; intros c Hvalid; simpl.
  - constructor.
  - inversion Hvalid; subst.
    destruct (sources !! w); [constructor; [assumption |] |]; apply IH;
      assumption.
Qed.

End TraceFacts.

(** ** Splitting a log among the workers *)

Section Buckets.
Context {A B : Type} (key : A -> nat) (f : A -> option B).

(** The part of [f]'s results that comes from elements with key [w]. *)
#[local] Abbreviation bucket l :=
  (fun w : nat =>
     omap (fun a => if bool_decide (key a = w) then f a else None) l).

Lemma buckets_nil (ws : list nat) : concat (bucket [] <$> ws) = [].
Proof. induction ws as [| w ws IH]; [reflexivity | exact IH]. Qed.

Lemma single_bucket (k : nat) (X : list B) (count : nat) : forall start,
  concat ((fun w => if bool_decide (k = w) then X else []) <$> seq start count)
  = if bool_decide (start <= k < start + count)%nat then X else [].
Proof.
  induction count as [| count IH]; intros start.
  - simpl. rewrite bool_decide_eq_false_2 by lia. reflexivity.
  - simpl. rewrite IH.
    destruct (decide (k = start)) as [-> | Hne].
    + rewrite bool_decide_eq_true_2 by reflexivity.
      rewrite bool_decide_eq_false_2 by lia.
      rewrite bool_decide_eq_true_2 by lia.
      apply app_nil_r.
    + rewrite (bool_decide_eq_false_2 (k = start)) by exact Hne. simpl.
      repeat case_bool_decide; try reflexivity; lia.
Qed.

Lemma buckets_cons (a : A) (l : list A) (ws : list nat) :
  concat (bucket (a :: l) <$> ws)
  ≡ₚ concat ((fun w => if bool_decide (key a = w)
                       then option_list (f a) else []) <$> ws)
     ++ concat (bucket l <$> ws).
Proof.
  induction ws as [| w ws IH]; [reflexivity |].
  cbn [fmap list_fmap concat]. rewrite IH.
  cbn [omap list_omap].
  destruct (bool_decide (key a = w)); simpl.
  - destruct (f a) as [b |]; simpl.
    + constructor. rewrite !app_assoc. apply Permutation_app_tail.
      apply Permutation_app_comm.
    + rewrite !app_assoc. apply Permutation_app_tail.
      apply Permutation_app_comm.
  - rewrite !app_assoc. apply Permutation_app_tail.
    apply Permutation_app_comm.
Qed.

(** Every element has a key below [count]: the buckets of the keys
    [0 .. count - 1] together hold exactly the results of [f]. *)
Lemma buckets_permutation (l : list A) (count : nat) :
  Forall (fun a => (key a < count)%nat) l ->
  concat (bucket l <$> seq 0 count) ≡ₚ omap f l.
Proof.
  induction l as [| a l IH]; intros Hkeys.
  - rewrite buckets_nil. reflexivity.
  - inversion Hkeys as [| ? ? Ha Hl]; subst.
    rewrite buckets_cons, (IH Hl), single_bucket.
    rewrite bool_decide_eq_true_2 by lia.
    simpl. destruct (f a); reflexivity.
Qed.

End Buckets.

(** ** Parallel scans *)

Section ParallelScan.
Context `{Externals}.

Lemma shares_cursor_holds_blocks blocks c (p : Pipe) :
  shares_cursor blocks c p ->
  Forall (fun src => MemorySource.data src = Some blocks) (processors p).
Proof.
  intros (_ & _ & Hall). eapply Forall_impl; [exact Hall |].
  intros src (Hdata & _). exact Hdata.
Qed.

(** C3, for scans with at least one stream. A scan created by [read]
    with parallelism [P > 0] over a snapshot of [N] batches, run under
    any interleaving of [generate] calls by its workers in which every
    worker reaches the end of the stream, no call fails, and at most
    [2^64] calls are made: the batch indices delivered to the workers,
    taken together as a multiset, are exactly [0, ..., N-1], each once;
    the call that delivered index [i] returned the chunk made of batch
    [i] of the snapshot, and every other call returned the empty
    chunk. *)
Theorem parallel_scan_delivers_each_batch_once
    column_names metadata_snapshot (P : N) s pipe s' (schedule : list nat) :
  0 < P < 2 ^ UINT_WIDTH ->
  StorageAggregatingMemory.read column_names metadata_snapshot P s
    = (Done pipe, s') ->
  Forall (fun w => (w < length (processors pipe))%nat) schedule ->
  N.of_nat (length schedule) <= 2 ^ SIZE_WIDTH ->
  let size := N.of_nat (length (Storage.data s)) in
  let log := (run schedule pipe).1 in
  (forall w, (w < length (processors pipe))%nat -> finished size log w) ->
  Forall (fun e => exists chunk, result e = Done chunk) log ->
  concat (deliveries size log <$> seq 0 (length (processors pipe)))
  ≡ₚ N.of_nat <$> seq 0 (length (Storage.data s))
  /\ Forall (fun e =>
               match delivered_index size e with
               | Some i =>
                   exists block,
                     Storage.data s !! N.to_nat i = Some block
                     /\ result e
                        = scan_chunk metadata_snapshot column_names block
               | None => result e = Done empty_chunk
               end) log.
Proof.
  intros HP Hread Hvalid Hcalls size log Hfinished Hdone.
  pose proof (read_shares_cursor _ _ _ _ _ _ Hread) as Hshared.
  pose proof (shares_cursor_holds_blocks _ _ _ Hshared) as Hblocks.
  assert (Hlog : log = trace (processors pipe) 0 schedule).
  { unfold log. rewrite (run_shares_cursor _ _ _ _ Hshared). reflexivity. }
  split.
  - unfold deliveries.
    rewrite (buckets_permutation worker (delivered_index size) log).
    2:{ rewrite Hlog. apply trace_workers_valid. exact Hvalid. }
    rewrite Hlog in Hdone |- *.
    unfold size.
    rewrite (trace_deliveries _ (Storage.data s) schedule 0 Hvalid);
      [| lia | exact Hdone].
    change (N.to_nat 0) with 0%nat. rewrite Nat.sub_0_r. simpl Nat.add.
    replace (Nat.min (length schedule) (length (Storage.data s)))
      with (length (Storage.data s)); [reflexivity |].
    destruct (Storage.data s) as [| block blocks] eqn:Hdata; [simpl; lia |].
    assert (Hworker : (0 < length (processors pipe))%nat).
    { destruct (read_Done _ _ _ _ _ _ Hread) as (_ & _ & Hlen & _).
      rewrite clamped_min in Hlen by lia.
      rewrite Hlen, Hdata. simpl length. lia. }
    destruct (Hfinished 0%nat Hworker) as (e & i & He & _ & Hi & Hend).
    rewrite Hlog in He.
    pose proof (trace_index_range (processors pipe) schedule 0 e i
                  ltac:(lia) He Hi) as Hrange.
    unfold size in Hend. lia.
  - pose proof (read_names_and_types _ _ _ _ _ _ Hread) as Htypes.
    rewrite Forall_forall in Hdone |- *. intros e He.
    destruct (Hdone e He) as [chunk Hchunk].
    rewrite Hlog in He.
    destruct (trace_events _ _ _ _ He) as (src & i & Hsrc & Hi & Hres).
    unfold delivered_index. rewrite Hi, Hchunk.
    destruct (N.ltb_spec i size) as [Hinside | Hpast].
    + destruct (lookup_lt_is_Some_2 (Storage.data s) (N.to_nat i)
                  ltac:(unfold size in Hinside; lia)) as [block Hblock].
      exists block. split; [exact Hblock |].
      destruct (shares_cursor_lookup _ _ _ _ _ Hshared Hsrc) as (Hdata & _).
      rewrite <- Hchunk, Hres, (produce_inside _ _ _ _ Hdata Hblock).
      rewrite Forall_lookup in Htypes.
      unfold scan_chunk. rewrite (Htypes _ _ Hsrc). reflexivity.
    + rewrite <- Hchunk, Hres.
      apply (produce_past_end _ _ Hblocks).
      * eapply list_elem_of_lookup_2. exact Hsrc.
      * exact Hpast.
Qed.

(** C5, up to wrap-around. In a scan created by [read] over a snapshot
    of [N] batches, once the shared index holds a value [c >= N], every
    further [generate] call returns the empty chunk for as long as the
    index does not wrap around, that is for the next [2^64 - c] calls. *)
Theorem finished_scan_stays_empty_until_wrap
    column_names metadata_snapshot (P : N) s pipe s'
    (before after : list nat) (c : N) :
  StorageAggregatingMemory.read column_names metadata_snapshot P s
    = (Done pipe, s') ->
  atomics (run before pipe).2 = [c] ->
  N.of_nat (length (Storage.data s)) <= c ->
  c + N.of_nat (length after) <= 2 ^ SIZE_WIDTH ->
  Forall (fun e => result e = Done empty_chunk)
         (run after (run before pipe).2).1.
Proof.
  intros Hread Hc Hend Hwrap.
  pose proof (read_shares_cursor _ _ _ _ _ _ Hread) as Hshared.
  pose proof (shares_cursor_holds_blocks _ _ _ Hshared) as Hblocks.
  rewrite (run_shares_cursor _ _ _ _ Hshared) in Hc |- *.
  simpl in Hc. inversion Hc as [Hcursor]. simpl.
  assert (Hshared' : shares_cursor (Storage.data s) c
            (mkPipe (processors pipe) [c])).
  { split; [reflexivity |]. split.
    - rewrite <- Hcursor. apply cursor_after_bound. reflexivity.
    - destruct Hshared as (_ & _ & Hall). exact Hall. }
  rewrite Hcursor.
  rewrite (run_shares_cursor _ _ _ _ Hshared'). simpl.
  eapply trace_past_end; eassumption.
Qed.

End ParallelScan.

Section WrapAround.
Context `{Externals}.

(** The last of [k + 1] successive calls by one worker sees the start
    value plus [k], reduced modulo [2^64]. *)
Lemma trace_replicate_last sources w src (k : nat) : forall c,
  sources !! w = Some src ->
  c < 2 ^ SIZE_WIDTH ->
  last (trace sources c (replicate (S k) w))
  = Some (mkEvent w (Some (wrap64 (c + N.of_nat k)))
            (produce src (wrap64 (c + N.of_nat k)))).
Proof.
  induction k as [| k IH]; intros c Hw Hc.
  - cbn [replicate trace]. rewrite Hw. cbn [trace last].
    rewrite N.add_0_r, (wrap64_small _ Hc). reflexivity.
  - change (replicate (S (S k)) w) with (w :: replicate (S k) w).
    cbn [trace]. rewrite Hw.
    assert (Hnext : last (trace sources (wrap64 (c + 1)) (replicate (S k) w))
                    = Some (mkEvent w (Some (wrap64 (c + N.of_nat (S k))))
                              (produce src (wrap64 (c + N.of_nat (S k)))))).
    { rewrite (IH (wrap64 (c + 1)) Hw (wrap64_bound _)).
      rewrite wrap64_add_l.
      replace (c + 1 + N.of_nat k) with (c + N.of_nat (S k)) by lia.
      reflexivity. }
    rewrite <- Hnext.
    change (replicate (S k) w) with (w :: replicate k w).
    cbn [trace]. rewrite Hw. reflexivity.
Qed.

(** After [2^64] further calls the index is back where it was. *)
Lemma wrap64_full_turn c : c < 2 ^ SIZE_WIDTH -> wrap64 (c + 2 ^ SIZE_WIDTH) = c.
Proof.
  intros Hc. unfold wrap64.
  rewrite <- (N.mul_1_l (2 ^ SIZE_WIDTH)) at 1.
  rewrite N.Div0.mod_add. apply N.mod_small. exact Hc.
Qed.

(** A log whose first and last call both delivered to worker [w] holds
    at least two deliveries to [w]. *)
Lemma deliveries_first_and_last size w e1 middle e2 i j :
  worker e1 = w -> worker e2 = w ->
  delivered_index size e1 = Some i -> delivered_index size e2 = Some j ->
  (2 <= length (deliveries size (e1 :: middle ++ [e2]) w))%nat.
Proof.
  intros Hw1 Hw2 Hd1 Hd2. unfold deliveries.
  cbn [omap list_omap].
  rewrite (bool_decide_eq_true_2 _ Hw1), Hd1.
  change (list_omap Event N ?f) with (omap (M := list) f).
  rewrite omap_app, length_cons, length_app.
  cbn [omap list_omap].
  rewrite (bool_decide_eq_true_2 _ Hw2), Hd2. simpl. lia.
Qed.

End WrapAround.

(** * Worked examples on the concrete instance *)

Module Examples.
Import Fixture.

Lemma read_creates_min_sources_witness :
  exists pipe s',
    StorageAggregatingMemory.read ["x"] meta_x 4 (table [A; B] 192 15)
      = (Done pipe, s')
    /\ length (processors pipe) = 2%nat.
Proof.
  eexists _, _. split; [reflexivity |].
  refine (proj1 (read_creates_min_sources ["x"] meta_x 4
                   (table [A; B] 192 15) _ _ _ _)).
  - reflexivity.
  - reflexivity.
Defined.

Lemma write_session_appends_witness :
  exists stream s',
    (stream ← StorageAggregatingMemory.write meta_x;
     write_all stream [A; B]) (table [C] 96 7) = (Done stream, table [C] 96 7)
    /\ AggregatingOutputStream.new_blocks stream = [A; B]
    /\ AggregatingOutputStream.writeSuffix stream (table [C] 96 7)
       = (Done tt, s')
    /\ Storage.data s' = [C; A; B]
    /\ (StorageAggregatingMemory.totalRows s').1 = Done (Some 22)
    /\ (StorageAggregatingMemory.totalBytes s').1 = Done (Some 288).
Proof.
  assert (Hok : Forall (fun b => check_block meta_x b = Done tt) [A; B])
    by (repeat constructor).
  destruct (write_session_appends meta_x (table [C] 96 7) [A; B] Hok)
    as (_ & stream & s' & Hsession & Hbuf & Hsuffix & Hdata & Hrows & Hbytes).
  exists stream, s'. repeat split; assumption.
Defined.

Lemma construction_failures_witness :
  MissingDefiningQuery
    (StorageAggregatingMemory.create "t" columns_x []
       (mkASTCreateQuery None))
  /\ UnsupportedUnionQuery
       (StorageAggregatingMemory.create "t" columns_x [] union_query)
  /\ UnexpectedArguments
       (creator (mkArguments "AggregatingMemory" [mkAST "arg" []] "t"
                   columns_x [] (mkASTCreateQuery None))).
Proof.
  pose (args := mkArguments "AggregatingMemory" [mkAST "arg" []] "t"
                  columns_x [] (mkASTCreateQuery None)).
  destruct (construction_failures "t" columns_x []
              (mkASTCreateQuery None) [] args)
    as (Hmissing & _ & Hargs).
  destruct (construction_failures "t" columns_x [] union_query [] args)
    as (_ & Hunion & _).
  split; [| split].
  - apply Hmissing. reflexivity.
  - eapply Hunion; [reflexivity | simpl; lia].
  - destruct (Hargs ltac:(discriminate)) as (entry & Hlast & _ & Hthrown & _).
    inversion Hlast; subst. exact Hthrown.
Defined.

(** C1. The store holds batch A (10 rows, 100 bytes) and a mutation
    affecting all columns replaces it by the same batch. The mutation
    returns and publishes [A], whose summed rows are 10 and summed bytes
    100; afterwards [totalRows] answers 100 and [totalBytes] answers 10:
    each sum sits in the slot of the other counter. *)
Theorem mutate_swaps_the_counters :
  let interpreter := mkMutationsInterpreter (Done [A]) true in
  let r := StorageAggregatingMemory.mutate false interpreter (table [A] 128 10) in
  r.1 = Done tt
  /\ Storage.data r.2 = [A]
  /\ total rows (Storage.data r.2) = 10
  /\ total bytes (Storage.data r.2) = 100
  /\ (StorageAggregatingMemory.totalRows r.2).1 = Done (Some 100)
  /\ (StorageAggregatingMemory.totalBytes r.2).1 = Done (Some 10).
Proof. vm_compute. repeat split; reflexivity. Qed.

(** C2. A build with [NDEBUG] defined does not detect a length mismatch:
    the two assertions that state the invariant expand to nothing. A
    partial mutation of a 3-batch store for which the pipeline returns 4
    replacement batches does not fail: it returns, publishes three
    updated batches and ignores the fourth. *)
Theorem partial_mutation_unchecked_publishes :
  let interpreter := mkMutationsInterpreter (Done [A'; B'; C'; D']) false in
  let s := table [A; B; C] 288 22 in
  let r := StorageAggregatingMemory.mutate true interpreter s in
  isAffectingAllColumns interpreter = false
  /\ length (StorageAggregatingMemory.read_all [A'; B'; C'; D'])
     <> length (Storage.data s)
  /\ r.1 = Done tt
  /\ Storage.data r.2 = [A'; B'; C']
  /\ r.2 <> s.
Proof.
  vm_compute. repeat split; try reflexivity; discriminate.
Qed.

Lemma partial_mutation_length_mismatch_aborts_witness :
  let interpreter := mkMutationsInterpreter (Done [A'; B']) false in
  let s := table [A; B; C] 288 22 in
  let r := StorageAggregatingMemory.mutate false interpreter s in
  (exists assertion, r.1 = Aborted assertion)
  \/ (fails_with ErrorCodes.NOT_FOUND_COLUMN_IN_BLOCK r.1 /\ r.2 = s).
Proof.
  intros interpreter s.
  apply (partial_mutation_length_mismatch_aborts interpreter [A'; B'] s).
  - reflexivity.
  - reflexivity.
  - vm_compute. discriminate.
Defined.

Lemma parallel_scan_delivers_each_batch_once_witness :
  exists pipe s',
    scan_AB = (Done pipe, s')
    /\ length (processors pipe) = 2%nat
    /\ concat (deliveries 2 (run [0; 1; 1; 0]%nat pipe).1 <$> seq 0 2)
       ≡ₚ [0; 1]
    /\ Forall (fun e =>
                 match delivered_index 2 e with
                 | Some i =>
                     exists block,
                       [A; B] !! N.to_nat i = Some block
                       /\ result e = scan_chunk meta_x ["x"] block
                 | None => result e = Done empty_chunk
                 end) (run [0; 1; 1; 0]%nat pipe).1.
Proof.
  eexists _, _. split; [reflexivity |]. split; [reflexivity |].
  refine (parallel_scan_delivers_each_batch_once ["x"] meta_x 4
            (table [A; B] 192 15) _ _ [0; 1; 1; 0]%nat _ eq_refl _ _ _ _).
  - split; reflexivity.
  - repeat constructor.
  - vm_compute. discriminate.
  - intros w Hw.
    destruct w as [| [| w]]; [| | simpl in Hw; lia].
    + eexists _, _. split; [| split; [| split]].
      * eapply (list_elem_of_lookup_2 _ 3%nat). reflexivity.
      * reflexivity.
      * reflexivity.
      * vm_compute. discriminate.
    + eexists _, _. split; [| split; [| split]].
      * eapply (list_elem_of_lookup_2 _ 2%nat). reflexivity.
      * reflexivity.
      * reflexivity.
      * vm_compute. discriminate.
  - repeat constructor; eexists; reflexivity.
Defined.

(** Batches are missed without a stream and repeated after a wrap-around.
    With requested parallelism 0 the pipe over the two batches [A; B]
    has no source: under every schedule no call is made and no batch is
    delivered. With one worker over the single batch [A], the call that
    follows [2^64] others claims index 0 a second time, and the batch is
    delivered twice. *)
Lemma scan_misses_or_repeats_batches :
  (exists pipe s',
     StorageAggregatingMemory.read ["x"] meta_x 0 (table [A; B] 192 15)
       = (Done pipe, s')
     /\ forall schedule,
          (run schedule pipe).1 = []
          /\ ~ concat (deliveries 2 (run schedule pipe).1
                         <$> seq 0 (length (processors pipe)))
               ≡ₚ N.of_nat <$> seq 0 2)
  /\ (exists pipe s',
        scan_A = (Done pipe, s')
        /\ ~ concat (deliveries 1
                       (run (replicate (S (N.to_nat (2 ^ SIZE_WIDTH))) 0%nat)
                            pipe).1
                       <$> seq 0 (length (processors pipe)))
             ≡ₚ N.of_nat <$> seq 0 1).
Proof.
  split.
  - eexists _, _. split; [reflexivity |].
    intros schedule.
    rewrite run_without_sources by reflexivity.
    split; [reflexivity |].
    intros Hperm. apply Permutation_length in Hperm. discriminate.
  - eexists _, _. split; [reflexivity |].
    assert (Hk : exists k, N.to_nat (2 ^ SIZE_WIDTH) = S k
                           /\ N.of_nat k = 2 ^ SIZE_WIDTH - 1).
    { exists (N.to_nat (2 ^ SIZE_WIDTH - 1)). unfold SIZE_WIDTH. split; lia. }
    destruct Hk as (k & Hcalls & Hk). rewrite Hcalls. clear Hcalls.
    match goal with
    | |- context [run _ ?p] =>
        assert (Hshared : shares_cursor [A] 0 p)
          by (split; [reflexivity |]; split; [reflexivity |];
              repeat constructor)
    end.
    rewrite (run_shares_cursor [A] _ 0 _ Hshared). cbn [fst].
    match goal with
    | |- context [trace ?sources _ _] =>
        assert (Hsrc : exists src chunk,
                  sources !! 0%nat = Some src
                  /\ produce src 0 = Done chunk)
          by (eexists _, _; split; reflexivity)
    end.
    destruct Hsrc as (src & chunk & Hsrc & Hchunk).
    change (replicate (S (S k)) 0%nat) with (0%nat :: replicate (S k) 0%nat).
    cbn [trace]. rewrite Hsrc.
    change (wrap64 (0 + 1)) with 1.
    pose proof (trace_replicate_last _ 0%nat src k 1 Hsrc eq_refl) as Hlast.
    rewrite Hk in Hlast.
    change (wrap64 (1 + (2 ^ SIZE_WIDTH - 1))) with 0 in Hlast.
    apply last_Some in Hlast. destruct Hlast as (earlier & Hlog).
    rewrite Hlog.
    intros Hperm. apply Permutation_length in Hperm.
    change (length (processors _)) with 1%nat in Hperm.
    cbn [seq fmap list_fmap concat] in Hperm.
    rewrite app_nil_r in Hperm.
    pose proof (deliveries_first_and_last 1 0%nat
                  (mkEvent 0 (Some 0) (Done chunk)) earlier
                  (mkEvent 0 (Some 0) (Done chunk)) 0 0
                  eq_refl eq_refl) as Htwice.
    rewrite Hchunk in Hperm.
    change (length [N.of_nat 0]) with 1%nat in Hperm.
    specialize (Htwice eq_refl eq_refl). rewrite Hperm in Htwice. lia.
Qed.

Lemma finished_scan_stays_empty_until_wrap_witness :
  exists pipe s',
    scan_A = (Done pipe, s')
    /\ atomics (run [0%nat] pipe).2 = [1]
    /\ Forall (fun e => result e = Done empty_chunk)
          (run [0; 0; 0]%nat (run [0%nat] pipe).2).1.
Proof.
  eexists _, _. split; [reflexivity |]. split; [reflexivity |].
  refine (finished_scan_stays_empty_until_wrap ["x"] meta_x 1
            (table [A] 128 10) _ _ [0%nat] [0; 0; 0]%nat 1 eq_refl eq_refl _ _).
  - vm_compute. discriminate.
  - vm_compute. discriminate.
Defined.

(** The shared index wraps around. One batch, one worker. The first call
    delivers the batch and leaves the shared index at 1, which is the size
    of the snapshot. Of the [2^64] calls that follow, the last one reads
    index 0 again and delivers the batch a second time: not every call
    after the end of the stream returns empty. *)
Lemma finished_scan_delivers_again_after_wrap :
  exists pipe s',
    scan_A = (Done pipe, s')
    /\ atomics (run [0%nat] pipe).2 = [1]
    /\ N.of_nat (length (Storage.data (table [A] 128 10))) <= 1
    /\ ~ Forall (fun e => result e = Done empty_chunk)
           (run (replicate (N.to_nat (2 ^ SIZE_WIDTH)) 0%nat)
                (run [0%nat] pipe).2).1.
Proof.
  eexists _, _. split; [reflexivity |]. split; [reflexivity |].
  split; [vm_compute; discriminate |].
  assert (Hk : exists k, N.to_nat (2 ^ SIZE_WIDTH) = S k
                         /\ N.of_nat k = 2 ^ SIZE_WIDTH - 1).
  { exists (N.to_nat (2 ^ SIZE_WIDTH - 1)). unfold SIZE_WIDTH. split; lia. }
  destruct Hk as (k & Hcalls & Hk). rewrite Hcalls. clear Hcalls.
  match goal with
  | |- context [run [0%nat] ?p] =>
      assert (Hshared : shares_cursor [A] 1 (run [0%nat] p).2)
        by (split; [reflexivity |]; split; [reflexivity |];
            repeat constructor)
  end.
  rewrite (run_shares_cursor [A] _ 1 _ Hshared). cbn [fst].
  intros Hall.
  match type of Hall with
  | Forall _ (trace ?sources _ _) =>
      assert (Hsrc : exists src, sources !! 0%nat = Some src
                                 /\ produce src 0 <> Done empty_chunk)
        by (eexists; split; [reflexivity | vm_compute; discriminate])
  end.
  destruct Hsrc as (src & Hsrc & Hdelivers).
  pose proof (trace_replicate_last _ 0%nat src k 1 Hsrc eq_refl) as Hlast.
  rewrite Hk in Hlast.
  change (wrap64 (1 + (2 ^ SIZE_WIDTH - 1))) with 0 in Hlast.
  apply last_Some in Hlast. destruct Hlast as (earlier & Hlog).
  rewrite Hlog in Hall. apply Forall_app in Hall. destruct Hall as [_ Hall].
  inversion Hall as [| ? ? Hempty _]. exact (Hdelivers Hempty).
Qed.

End Examples.

(** * Further properties *)

(** ** [getByName] and [updateBlockData] *)

Section UpdateBlockDataFacts.
Context `{ColumnTypes}.

Lemma getByName_Done (b : Block) n i c :
  getByName b n = Done (i, c) ->
  b !! i = Some c /\ name c = n
  /\ forall j y, b !! j = Some y -> (j < i)%nat -> name y <> n.
Proof.
  unfold getByName.
  destruct (list_find _ b) as [[i' c'] |] eqn:Hfind; [| discriminate].
  intros Hd. inversion Hd; subst.
  apply list_find_Some in Hfind. exact Hfind.
Qed.

Lemma getByName_present (b : Block) n :
  n ∈ block_names b -> exists i c, getByName b n = Done (i, c).
Proof.
  intros Hn. unfold getByName.
  destruct (list_find _ b) as [[i c] |] eqn:Hfind; [eauto |].
  exfalso. unfold block_names in Hn.
  apply list_elem_of_fmap in Hn. destruct Hn as (c & -> & Hc).
  rewrite list_find_None in Hfind. rewrite Forall_forall in Hfind.
  exact (Hfind c Hc eq_refl).
Qed.

Lemma getByName_absent (b : Block) n :
  n ∉ block_names b ->
  fails_with ErrorCodes.NOT_FOUND_COLUMN_IN_BLOCK (getByName b n).
Proof.
  intros Hn. unfold getByName.
  destruct (list_find _ b) as [[i c] |] eqn:Hfind.
  - exfalso. apply Hn. apply list_find_Some in Hfind.
    destruct Hfind as (Hi & Hname & _). unfold block_names.
    apply list_elem_of_fmap. exists c. split; [congruence |].
    eapply list_elem_of_lookup_2. exact Hi.
  - eexists. split; reflexivity.
Qed.

(** Assigning a new column pointer to one element changes neither the
    names nor the types of the block. *)
Lemma assign_column_keeps_schema (b : Block) i c (col : Column) :
  b !! i = Some c ->
  let b' := <[i := mkColumnWithTypeAndName col (type c) (name c)]> b in
  block_names b' = block_names b /\ block_types b' = block_types b.
Proof.
  intros Hi b'. unfold b', block_names, block_types, Block in *.
  rewrite !list_fmap_insert. simpl.
  split; apply list_insert_id; rewrite list_lookup_fmap, Hi; reflexivity.
Qed.

(** The induction behind the schema property of [updateBlockData]. *)
Lemma updateBlockData_schema (new_block old_block updated : Block) :
  updateBlockData old_block new_block = Done updated ->
  block_names updated = block_names old_block
  /\ block_types updated = block_types old_block
  /\ length updated = length old_block.
Proof.
  revert old_block. induction new_block as [| it rest IH]; intros old_block.
  - simpl. intros Hd. inversion Hd. auto.
  - simpl. unfold mbind, outcome_mbind, outcome_bind.
    destruct (getByName old_block (name it)) as [[i c] | | |] eqn:Hget;
      try discriminate.
    intros Hd. apply getByName_Done in Hget. destruct Hget as (Hi & _ & _).
    destruct (assign_column_keeps_schema old_block i c (column it) Hi)
      as [Hnames Htypes].
    destruct (IH _ Hd) as (Hn & Ht & Hl).
    rewrite Hn, Ht, Hl, Hnames, Htypes.
    split; [reflexivity |]. split; [reflexivity |]. apply length_insert.
Qed.

(** X1. Where [updateBlockData] returns, the block has as many columns
    as before and, position by position, each column has the name and
    the type it had before. *)
Theorem updateBlockData_keeps_schema (new_block old_block updated : Block) :
  updateBlockData old_block new_block = Done updated ->
  Forall2 (fun before after =>
             name after = name before /\ type after = type before)
          old_block updated.
Proof.
  intros Hd.
  destruct (updateBlockData_schema _ _ _ Hd) as (Hnames & Htypes & Hlen).
  apply Forall2_same_length_lookup. split; [congruence |].
  intros i before after Hbefore Hafter.
  assert (Hn : block_names updated !! i = block_names old_block !! i)
    by (rewrite Hnames; reflexivity).
  assert (Ht : block_types updated !! i = block_types old_block !! i)
    by (rewrite Htypes; reflexivity).
  unfold block_names, block_types in Hn, Ht.
  rewrite (list_lookup_fmap name updated i),
    (list_lookup_fmap name old_block i), Hbefore, Hafter in Hn.
  rewrite (list_lookup_fmap type updated i),
    (list_lookup_fmap type old_block i), Hbefore, Hafter in Ht.
  simpl in Hn, Ht. split; congruence.
Qed.

(** X2. [updateBlockData] returns exactly when every column of the new
    block has a column of its name in the old block; otherwise it throws
    the not-found error of [getByName]. *)
Theorem updateBlockData_returns_iff_names_known (new_block old_block : Block) :
  ((exists updated, updateBlockData old_block new_block = Done updated)
   <-> Forall (fun it => name it ∈ block_names old_block) new_block)
  /\ (~ Forall (fun it => name it ∈ block_names old_block) new_block ->
      fails_with ErrorCodes.NOT_FOUND_COLUMN_IN_BLOCK
        (updateBlockData old_block new_block)).
Proof.
  revert old_block. induction new_block as [| it rest IH]; intros old_block.
  - simpl. split; [split; eauto |]. intros Hn. exfalso. apply Hn. constructor.
  - simpl. unfold mbind, outcome_mbind, outcome_bind.
    destruct (decide (name it ∈ block_names old_block)) as [Hin | Hout].
    + destruct (getByName_present _ _ Hin) as (i & c & Hget). rewrite Hget.
      pose proof (getByName_Done _ _ _ _ Hget) as (Hi & _ & _).
      destruct (assign_column_keeps_schema old_block i c (column it) Hi)
        as [Hnames _].
      specialize (IH (<[i := mkColumnWithTypeAndName (column it) (type c)
                                (name c)]> old_block)).
      rewrite Hnames in IH. destruct IH as [IHiff IHfail].
      split.
      * rewrite IHiff. split.
        -- intros Hrest. constructor; assumption.
        -- intros Hall. inversion Hall; assumption.
      * intros Hn. apply IHfail. intros Hrest. apply Hn.
        constructor; assumption.
    + destruct (getByName_absent _ _ Hout) as (e & He & Hcode). rewrite He.
      split.
      * split; [intros [u Hu]; discriminate |].
        intros Hall. inversion Hall; contradiction.
      * intros _. exists e. split; [reflexivity | exact Hcode].
Qed.

End UpdateBlockDataFacts.

Section ReplacedByFacts.
Context `{ColumnTypes}.

Lemma replaced_by_nil (c : ColumnWithTypeAndName) : replaced_by [] c = c.
Proof. reflexivity. Qed.

Lemma replaced_by_cons_same (it : ColumnWithTypeAndName) rest c :
  name it = name c ->
  replaced_by (it :: rest) c
  = mkColumnWithTypeAndName (column it) (type c) (name c).
Proof.
  intros Hname. unfold replaced_by. cbn [list_find].
  rewrite decide_True by exact Hname. reflexivity.
Qed.

Lemma replaced_by_cons_other (it : ColumnWithTypeAndName) rest c :
  name it <> name c -> replaced_by (it :: rest) c = replaced_by rest c.
Proof.
  intros Hname. unfold replaced_by. cbn [list_find].
  rewrite decide_False by exact Hname.
  destruct (list_find _ rest) as [[i it'] |]; reflexivity.
Qed.

Lemma replaced_by_unknown (new_block : Block) c :
  name c ∉ block_names new_block -> replaced_by new_block c = c.
Proof.
  intros Hout. unfold replaced_by.
  destruct (list_find _ new_block) as [[i it] |] eqn:Hfind; [| reflexivity].
  exfalso. apply Hout. apply list_find_Some in Hfind.
  destruct Hfind as (Hi & Hname & _). unfold block_names.
  apply list_elem_of_fmap. exists it. split; [congruence |].
  eapply list_elem_of_lookup_2. exact Hi.
Qed.

(** X3. On blocks whose column names are distinct, [updateBlockData]
    replaces, column by column: a column of the old block whose name
    occurs in the new block gets the column pointer of that new column,
    under its old type and name, and every other column is left as it
    was; no column is added, dropped or moved. *)
Theorem updateBlockData_replaces_by_name (new_block old_block updated : Block) :
  NoDup (block_names old_block) ->
  NoDup (block_names new_block) ->
  updateBlockData old_block new_block = Done updated ->
  updated = replaced_by new_block <$> old_block.
Proof.
  revert old_block. induction new_block as [| it rest IH];
    intros old_block Hold Hnew.
  - simpl. intros Hd. inversion Hd; subst.
    symmetry. erewrite list_fmap_ext; [apply list_fmap_id |].
    intros i c _. apply replaced_by_nil.
  - simpl. unfold mbind, outcome_mbind, outcome_bind.
    destruct (getByName old_block (name it)) as [[j cj] | | |] eqn:Hget;
      try discriminate.
    intros Hd. apply getByName_Done in Hget.
    destruct Hget as (Hj & Hnamej & _).
    destruct (assign_column_keeps_schema old_block j cj (column it) Hj)
      as [Hnames _].
    unfold block_names in Hnew. rewrite fmap_cons in Hnew.
    apply NoDup_cons in Hnew. destruct Hnew as [Hfresh Hrest].
    rewrite (IH _ ltac:(rewrite Hnames; exact Hold) Hrest Hd).
    apply list_eq. intros i. rewrite !list_lookup_fmap.
    destruct (decide (i = j)) as [-> | Hij].
    + unfold Block in *.
      rewrite list_lookup_insert_eq by (eapply lookup_lt_Some; exact Hj).
      rewrite Hj. simpl. f_equal.
      rewrite replaced_by_unknown by (simpl; rewrite Hnamej; exact Hfresh).
      rewrite replaced_by_cons_same by congruence. reflexivity.
    + unfold Block in *. rewrite list_lookup_insert_ne by congruence.
      destruct (old_block !! i) as [c |] eqn:Hi; [| reflexivity].
      simpl. f_equal. rewrite replaced_by_cons_other; [reflexivity |].
      intros Hsame. apply Hij.
      eapply (NoDup_lookup (block_names old_block) i j (name c)).
      * exact Hold.
      * unfold block_names. rewrite list_lookup_fmap, Hi. reflexivity.
      * unfold block_names. rewrite list_lookup_fmap, Hj. simpl.
        congruence.
Qed.

End ReplacedByFacts.

(** ** More on mutations *)

Section MutateMore.
Context `{Externals}.

(** X4. The blocks [mutate] takes from the stream are the longest prefix
    of non-empty blocks: reading stops at the first block that converts
    to [false] and nothing after it is used. *)
Theorem read_all_longest_nonempty_prefix (in_ : list Block) :
  exists unread,
    in_ = StorageAggregatingMemory.read_all in_ ++ unread
    /\ Forall (fun b => block_bool b = true)
              (StorageAggregatingMemory.read_all in_)
    /\ (unread = []
        \/ exists b later, unread = b :: later /\ block_bool b = false).
Proof.
  induction in_ as [| block rest IH].
  - exists []. simpl. auto.
  - simpl. destruct (block_bool block) eqn:Hb.
    + destruct IH as (unread & Hsplit & Hall & Hstop).
      exists unread. split; [simpl; congruence |].
      split; [constructor; assumption | exact Hstop].
    + exists (block :: rest). split; [reflexivity |].
      split; [constructor |]. right. eauto.
Qed.

(** The loop of the partial branch keeps, block by block, the names and
    types of the columns. *)
Lemma update_blocks_keeps_schema NDEBUG data_it out_it s updated out_end :
  (StorageAggregatingMemory.update_blocks NDEBUG data_it out_it s).1
    = Done (updated, out_end) ->
  Forall2 (fun before after =>
             block_names after = block_names before
             /\ block_types after = block_types before)
          data_it updated.
Proof.
  revert out_it updated.
  induction data_it as [| old_block rest IH]; intros out_it updated.
  - simpl. storage_unfold. simpl. intros Hd. inversion Hd. constructor.
  - simpl. unfold Storage.assert. storage_unfold.
    destruct NDEBUG, out_it as [| new_block out_next]; simpl;
      try discriminate.
    all: destruct (updateBlockData old_block new_block) as [a | | |] eqn:Hupd;
      simpl; try discriminate.
    all: specialize (IH out_next);
      destruct (StorageAggregatingMemory.update_blocks _ rest out_next s)
        as [[[r e] | | |] s1]; simpl in *; try discriminate.
    all: intros Hd; inversion Hd; subst;
      constructor; [| apply IH; reflexivity].
    all: destruct (updateBlockData_schema _ _ _ Hupd) as (Hn & Ht & _);
      auto.
Qed.

End MutateMore.

Section MutateBuilds.
Context `{Externals}.

Lemma update_blocks_equal_lengths data_it : forall out_it s,
  length out_it = length data_it ->
  StorageAggregatingMemory.update_blocks true data_it out_it s
  = StorageAggregatingMemory.update_blocks false data_it out_it s.
Proof.
  induction data_it as [| old_block rest IH]; intros out_it s Hlen.
  - reflexivity.
  - destruct out_it as [| new_block out_next]; [discriminate |].
    simpl. unfold Storage.assert. storage_unfold. simpl.
    destruct (updateBlockData old_block new_block); simpl; try reflexivity.
    rewrite IH by (simpl in Hlen; lia). reflexivity.
Qed.

(** X5. Where the replacement sequence has the length of the published
    one, or where all columns are affected, the assertions decide
    nothing: a build with [NDEBUG] and a build without it leave the same
    outcome and the same storage. *)
Theorem mutate_same_in_both_builds
    (interpreter : MutationsInterpreter) (in_ : list Block) (s : Storage.t) :
  execute interpreter = Done in_ ->
  isAffectingAllColumns interpreter = true
  \/ length (StorageAggregatingMemory.read_all in_) = length (Storage.data s) ->
  StorageAggregatingMemory.mutate true interpreter s
  = StorageAggregatingMemory.mutate false interpreter s.
Proof.
  intros Hexec Hcase.
  unfold StorageAggregatingMemory.mutate. storage_unfold.
  rewrite Hexec. simpl.
  destruct (isAffectingAllColumns interpreter) eqn:Hall; [reflexivity |].
  destruct Hcase as [Habs | Hlen]; [discriminate |].
  simpl. rewrite (update_blocks_equal_lengths _ _ _ Hlen).
  pose proof (update_blocks_checked (Storage.data s)
                (StorageAggregatingMemory.read_all in_) s) as Hloop.
  destruct (StorageAggregatingMemory.update_blocks false _ _ s)
    as [[[updated out_end] | | |] s1]; simpl in *; try reflexivity.
  destruct Hloop as [_ Hsum].
  assert (Hend : out_end = []) by (destruct out_end; [reflexivity | simpl in Hsum; lia]).
  subst out_end. unfold Storage.assert. storage_unfold. simpl. reflexivity.
Qed.

(** X6. A mutation of only some columns that returns, in either build,
    has published as many blocks as there were, and each block has the
    column names and types of the block it replaces; the table
    identity and the metadata are untouched. *)
Theorem partial_mutation_keeps_blocks_and_schema
    NDEBUG (interpreter : MutationsInterpreter) (s s' : Storage.t) :
  isAffectingAllColumns interpreter = false ->
  StorageAggregatingMemory.mutate NDEBUG interpreter s = (Done tt, s') ->
  Forall2 (fun before after =>
             block_names after = block_names before
             /\ block_types after = block_types before)
          (Storage.data s) (Storage.data s')
  /\ length (Storage.data s') = length (Storage.data s)
  /\ Storage.table_id s' = Storage.table_id s
  /\ Storage.metadata s' = Storage.metadata s.
Proof.
  intros Hpartial.
  unfold StorageAggregatingMemory.mutate. storage_unfold.
  destruct (execute interpreter) as [in_ | | |]; simpl; try discriminate.
  rewrite Hpartial. simpl.
  pose proof (update_blocks_keeps_schema NDEBUG (Storage.data s)
                (StorageAggregatingMemory.read_all in_) s) as Hschema.
  pose proof (update_blocks_keeps_storage NDEBUG (Storage.data s)
                (StorageAggregatingMemory.read_all in_) s) as Hkeep.
  destruct (StorageAggregatingMemory.update_blocks NDEBUG _ _ s)
    as [[[updated out_end] | | |] s1]; simpl in *; try discriminate.
  subst s1. specialize (Hschema updated out_end eq_refl).
  unfold Storage.assert. storage_unfold.
  assert (Hdone : forall rows_bytes : N * N,
    (let '(rows_, bytes_) := rows_bytes in
     fun s0 : Storage.t =>
       (Done tt, Storage.mk (Storage.table_id s0) (Storage.metadata s0)
                   updated rows_ bytes_)) s = (Done tt, s') ->
    Forall2 (fun before after =>
               block_names after = block_names before
               /\ block_types after = block_types before)
            (Storage.data s) (Storage.data s')
    /\ length (Storage.data s') = length (Storage.data s)
    /\ Storage.table_id s' = Storage.table_id s
    /\ Storage.metadata s' = Storage.metadata s).
  { intros [r b] Hd. inversion Hd; subst. simpl.
    split; [exact Hschema |].
    split; [symmetry; eapply Forall2_length; exact Hschema | auto]. }
  destruct NDEBUG; simpl.
  - apply Hdone.
  - destruct (bool_decide _); simpl; [apply Hdone | discriminate].
Qed.

End MutateBuilds.

Section MutateOutcomes.
Context `{Externals}.

Lemma mutate_keeps_identity NDEBUG interpreter s :
  let r := StorageAggregatingMemory.mutate NDEBUG interpreter s in
  Storage.table_id r.2 = Storage.table_id s
  /\ Storage.metadata r.2 = Storage.metadata s.
Proof.
  unfold StorageAggregatingMemory.mutate. storage_unfold.
  destruct (execute interpreter) as [in_ | | |]; simpl; auto.
  destruct (isAffectingAllColumns interpreter); simpl.
  - destruct (StorageAggregatingMemory.summed _). simpl. auto.
  - pose proof (update_blocks_keeps_storage NDEBUG (Storage.data s)
                  (StorageAggregatingMemory.read_all in_) s) as Hkeep.
    destruct (StorageAggregatingMemory.update_blocks _ _ _ s)
      as [[[updated out_end] | | |] s1]; simpl in *; subst; auto.
    unfold Storage.assert. storage_unfold.
    destruct NDEBUG; simpl.
    + destruct (StorageAggregatingMemory.summed _). simpl. auto.
    + destruct (bool_decide _); simpl; auto.
      destruct (StorageAggregatingMemory.summed _). simpl. auto.
Qed.

(** X7. A mutation gives the strong exception guarantee, in every build
    and whatever the interpreter answers: when it throws, the storage
    object is exactly what it was before, published sequence and
    counters included, and the exception is the one of the interpreter's
    stream or, in a mutation of only some columns, the not-found error
    of [updateBlockData]. When it returns, the table identity and the
    metadata are those from before. *)
Theorem throwing_mutation_changes_nothing NDEBUG
    (interpreter : MutationsInterpreter) (s : Storage.t) :
  let r := StorageAggregatingMemory.mutate NDEBUG interpreter s in
  (forall e, r.1 = Thrown e ->
     r.2 = s
     /\ (execute interpreter = Thrown e
         \/ (isAffectingAllColumns interpreter = false
             /\ code e = ErrorCodes.NOT_FOUND_COLUMN_IN_BLOCK)))
  /\ (r.1 = Done tt ->
      Storage.table_id r.2 = Storage.table_id s
      /\ Storage.metadata r.2 = Storage.metadata s).
Proof.
  intros r. split.
  - intros e He. exact (thrown_mutation_keeps_storage _ _ _ _ He).
  - intros _. apply mutate_keeps_identity.
Qed.

(** A mutation that affects all columns returns in every build and
    publishes exactly the blocks taken from the stream, whatever was
    published before; the number of blocks may change. *)
Theorem mutation_of_all_columns_supersedes NDEBUG
    (interpreter : MutationsInterpreter) (in_ : list Block) (s : Storage.t) :
  execute interpreter = Done in_ ->
  isAffectingAllColumns interpreter = true ->
  let r := StorageAggregatingMemory.mutate NDEBUG interpreter s in
  r.1 = Done tt
  /\ Storage.data r.2 = StorageAggregatingMemory.read_all in_.
Proof.
  intros Hexec Hall.
  unfold StorageAggregatingMemory.mutate. storage_unfold.
  rewrite Hexec, Hall. simpl.
  destruct (StorageAggregatingMemory.summed _). simpl. auto.
Qed.

End MutateOutcomes.

(** ** Counters under inserts, drop and truncate *)

Section CounterInvariant.
Context `{Externals}.

Lemma insert_session_accepted metadata_snapshot blocks s :
  Forall (fun b => check_block metadata_snapshot b = Done tt) blocks ->
  insert_session metadata_snapshot blocks s
  = AggregatingOutputStream.writeSuffix
      (AggregatingOutputStream.mk blocks metadata_snapshot) s.
Proof.
  intros Hok. unfold insert_session, StorageAggregatingMemory.write.
  storage_unfold.
  rewrite write_all_accepted by exact Hok. reflexivity.
Qed.

(** A session either appends all its blocks or, when a block is
    rejected, leaves the storage as it was. *)
Lemma insert_session_cases metadata_snapshot blocks s :
  let r := insert_session metadata_snapshot blocks s in
  (r.1 = Done tt
   /\ Storage.data r.2 = Storage.data s ++ blocks
   /\ Storage.total_size_rows r.2
      = wrap64 (Storage.total_size_rows s + total rows blocks)
   /\ Storage.total_size_bytes r.2
      = wrap64 (Storage.total_size_bytes s + total allocatedBytes blocks))
  \/ (r.1 <> Done tt /\ r.2 = s).
Proof.
  unfold insert_session, StorageAggregatingMemory.write. storage_unfold.
  pose proof (write_all_keeps_storage
                (AggregatingOutputStream.mk [] metadata_snapshot) blocks s)
    as Hkeep.
  destruct (write_all _ blocks s) as [[stream | e | x |] s1] eqn:Hw;
    simpl in *; subst s1;
    try (right; split; [discriminate | reflexivity]).
  left.
  assert (Hbuf : AggregatingOutputStream.new_blocks stream = blocks).
  { clear -Hw. 
    assert (Hgen : forall bs st st' s s',
      write_all st bs s = (Done st', s') ->
      AggregatingOutputStream.new_blocks st'
      = AggregatingOutputStream.new_blocks st ++ bs).
    { induction bs as [| b bs IH]; intros st st' s0 s' Hd.
      - simpl in Hd. storage_unfold. inversion Hd. rewrite app_nil_r.
        reflexivity.
      - simpl in Hd. unfold AggregatingOutputStream.write in Hd.
        storage_unfold.
        destruct (check_block _ b) as [u | | |]; simpl in Hd;
          try discriminate.
        rewrite (IH _ _ _ _ Hd). simpl. rewrite <- app_assoc. reflexivity. }
    exact (Hgen _ _ _ _ _ Hw). }
  destruct (writeSuffix_spec stream s) as (s' & Hsuffix & Hdata & Hr & Hb).
  rewrite Hsuffix. simpl. rewrite Hdata, Hr, Hb, Hbuf. auto.
Qed.

End CounterInvariant.

Section CounterInvariantTheorems.
Context `{Externals}.

Lemma apply_op_keeps_consistency op s :
  counters_consistent s -> counters_consistent (apply_op op s).2.
Proof.
  intros [Hrows Hbytes]. destruct op as [metadata_snapshot blocks | |].
  - simpl.
    destruct (insert_session_cases metadata_snapshot blocks s)
      as [(_ & Hdata & Hr & Hb) | [_ Hsame]].
    + unfold counters_consistent. rewrite Hdata, Hr, Hb, Hrows, Hbytes.
      rewrite !total_app, !wrap64_add_l. auto.
    + rewrite Hsame. split; assumption.
  - split; reflexivity.
  - split; reflexivity.
Qed.

(** X8. A table as the constructor leaves it has counters that agree
    with its published sequence, and insert sessions (accepted or
    abandoned on a rejected block), [drop] and [truncate], in any number
    and order, keep it so: [total_size_rows] is the summed [rows()] and
    [total_size_bytes] the summed [allocatedBytes()] of the published
    blocks, in [size_t]. *)
Theorem counters_follow_inserts_and_resets :
  (forall table_id_ columns_description_ constraints_ query s,
      StorageAggregatingMemory.create table_id_ columns_description_
        constraints_ query = Done s ->
      counters_consistent s)
  /\ (forall (ops : list TableOp) s,
        counters_consistent s -> counters_consistent (apply_ops ops s).2).
Proof.
  split.
  - intros table_id_ columns_description_ constraints_ query s.
    unfold StorageAggregatingMemory.create.
    destruct (select query) as [query_select |]; [| discriminate].
    destruct (negb _); [discriminate |].
    unfold mbind, mret, outcome_mbind, outcome_ret, outcome_bind.
    destruct (getSelectQueryFromASTForAggr query_select); try discriminate.
    intros Hd. inversion Hd; subst. split; reflexivity.
  - induction ops as [| op rest IH]; intros s Hs; [exact Hs |].
    simpl. storage_unfold.
    pose proof (apply_op_keeps_consistency op s Hs) as Hnext.
    destruct (apply_op op s) as [[[] | e | x |] s1]; simpl in *;
      try exact Hnext.
    apply IH. exact Hnext.
Qed.

(** X9. Sessions finalized one after the other, all of whose blocks are
    accepted, publish the old sequence followed by the blocks of the
    sessions in the order the sessions were finalized, each session's
    blocks in the order they were written. *)
Theorem sessions_append_in_finalize_order
    (metadata_snapshot : StorageInMemoryMetadata) (sessions : list Blocks)
    (s : Storage.t) :
  Forall (Forall (fun b => check_block metadata_snapshot b = Done tt)) sessions ->
  let r := apply_ops (Insert metadata_snapshot <$> sessions) s in
  r.1 = Done tt
  /\ Storage.data r.2 = Storage.data s ++ concat sessions.
Proof.
  revert s. induction sessions as [| blocks rest IH]; intros s Hok.
  - simpl. rewrite app_nil_r. auto.
  - inversion Hok as [| ? ? Hblocks Hrest]; subst.
    simpl. storage_unfold.
    rewrite (insert_session_accepted _ _ _ Hblocks).
    destruct (writeSuffix_spec
                (AggregatingOutputStream.mk blocks metadata_snapshot) s)
      as (s1 & Hsuffix & Hdata & _ & _).
    rewrite Hsuffix. simpl in *.
    destruct (IH s1 Hrest) as [Hdone Hall].
    change (list_fmap Blocks TableOp (Insert metadata_snapshot) rest)
      with (Insert metadata_snapshot <$> rest).
    split; [exact Hdone |].
    rewrite Hall, Hdata, app_assoc. reflexivity.
Qed.

(** X10. A scan sees the sequence published when it was started: sources
    created by a [read] before an insert session hold the old sequence,
    and sources created by a [read] after the session has been finalized
    hold the old sequence followed by the session's blocks. *)
Theorem scan_sees_finalized_sessions_only
    column_names metadata_snapshot (P : N) (blocks : Blocks)
    (s s1 s2 s3 : Storage.t) (before after : Pipe) :
  StorageAggregatingMemory.read column_names metadata_snapshot P s
    = (Done before, s1) ->
  insert_session metadata_snapshot blocks s1 = (Done tt, s2) ->
  StorageAggregatingMemory.read column_names metadata_snapshot P s2
    = (Done after, s3) ->
  Forall (fun src => MemorySource.data src = Some (Storage.data s))
         (processors before)
  /\ Forall (fun src =>
               MemorySource.data src = Some (Storage.data s ++ blocks))
            (processors after).
Proof.
  intros Hbefore Hsession Hafter.
  destruct (read_Done _ _ _ _ _ _ Hbefore) as (Hs1 & _ & _ & Hb). subst s1.
  destruct (read_Done _ _ _ _ _ _ Hafter) as (_ & _ & _ & Ha).
  destruct (insert_session_cases metadata_snapshot blocks s)
    as [(_ & Hdata & _) | [Hfail _]].
  - rewrite Hsession in Hdata. simpl in Hdata. rewrite Hdata in Ha.
    split; (eapply Forall_impl; [eassumption |]); intros src (Hd & _);
      exact Hd.
  - rewrite Hsession in Hfail. simpl in Hfail. contradiction.
Qed.

End CounterInvariantTheorems.

(** ** What a call of [generate] returns *)

Section ProjectFacts.
Context `{Externals}.

Lemma mapM_Done_Forall2 {A B} (f : A -> Outcome B) (l : list A) (r : list B) :
  mapM f l = Done r <-> Forall2 (fun a b => f a = Done b) l r.
Proof.
  revert r. induction l as [| a l IH]; intros r; simpl.
  - unfold mret, outcome_ret. split.
    + intros Hd. inversion Hd. constructor.
    + intros Hf. inversion Hf. reflexivity.
  - unfold mbind, outcome_mbind, outcome_bind.
    fold (@mapM Outcome _ _ A B f l).
    destruct (f a) as [b | | |] eqn:Hb.
    + destruct (mapM f l) as [bs | | |] eqn:Hbs;
        unfold mret, outcome_ret.
      * split.
        -- intros Hd. inversion Hd; subst. constructor; [exact Hb |].
           apply IH. reflexivity.
        -- intros Hf. inversion Hf as [| ? b' ? bs' Hb' Hrest]; subst.
           apply IH in Hrest. rewrite Hb in Hb'. congruence.
      * split; [discriminate |]. intros Hf.
        inversion Hf as [| ? ? ? bs' _ Hrest]; subst.
        apply IH in Hrest. discriminate.
      * split; [discriminate |]. intros Hf.
        inversion Hf as [| ? ? ? bs' _ Hrest]; subst.
        apply IH in Hrest. discriminate.
      * split; [discriminate |]. intros Hf.
        inversion Hf as [| ? ? ? bs' _ Hrest]; subst.
        apply IH in Hrest. discriminate.
    + split; [discriminate |]. intros Hf. inversion Hf; congruence.
    + split; [discriminate |]. intros Hf. inversion Hf; congruence.
    + split; [discriminate |]. intros Hf. inversion Hf; congruence.
Qed.

(** When every element returns or throws with code [c], so does the
    loop over the list. *)
Lemma mapM_throws_code {A B} (f : A -> Outcome B) (c : ErrorCodes.t)
    (l : list A) :
  Forall (fun a => match f a with
                   | Done _ => True
                   | Thrown e => code e = c
                   | _ => False
                   end) l ->
  match mapM f l with
  | Done _ => True
  | Thrown e => code e = c
  | _ => False
  end.
Proof.
  induction l as [| a l IH]; intros Hall; simpl; [exact I |].
  inversion Hall as [| ? ? Ha Hrest]; subst.
  unfold mbind, outcome_mbind, outcome_bind.
  fold (@mapM Outcome _ _ A B f l).
  destruct (f a); try assumption.
  specialize (IH Hrest). destruct (mapM f l); assumption.
Qed.

Lemma required_plain_column (src_block : Block) (elem : NameAndTypePair) :
  subcolumn_name elem = None ->
  MemorySource.required_column src_block elem
  = ('(_, found) ← getByName src_block (getNameInStorage elem);
     mret (column found)).
Proof.
  intros Hplain. unfold MemorySource.required_column, isSubcolumn.
  rewrite Hplain. rewrite bool_decide_eq_false_2 by (intros [x Hx]; discriminate).
  reflexivity.
Qed.

(** X11. For a request of plain columns, the chunk built from a block
    exists exactly when every requested name is a column of the block.
    It then has the row count of the block and, in the order of the
    request, the column pointers of the block's columns of those names.
    When a requested name is missing the call throws the not-found error
    and returns no partial chunk. *)
Theorem project_plain_columns (names_and_types : NamesAndTypesList)
    (src_block : Block) :
  Forall (fun elem => subcolumn_name elem = None) names_and_types ->
  let known := Forall (fun elem => getNameInStorage elem ∈ block_names src_block)
                      names_and_types in
  (known ->
   exists columns,
     project names_and_types src_block
       = Done (mkChunk columns (rows src_block))
     /\ Forall2 (fun elem col =>
                   exists i found,
                     getByName src_block (getNameInStorage elem)
                       = Done (i, found)
                     /\ column found = col)
                names_and_types columns)
  /\ (~ known ->
      fails_with ErrorCodes.NOT_FOUND_COLUMN_IN_BLOCK
        (project names_and_types src_block)).
Proof.
  intros Hplain known. split.
  - intros Hknown. unfold project.
    assert (Hcols : exists columns,
      Forall2 (fun elem col =>
                 MemorySource.required_column src_block elem = Done col
                 /\ exists i found,
                      getByName src_block (getNameInStorage elem)
                        = Done (i, found) /\ column found = col)
              names_and_types columns).
    { unfold known in Hknown. clear known.
      induction names_and_types as [| elem rest IH].
      - exists []. constructor.
      - inversion Hplain as [| ? ? Hp Hps]; subst.
        inversion Hknown as [| ? ? Hk Hks]; subst.
        destruct (IH Hps Hks) as (cols & Hcols).
        destruct (getByName_present _ _ Hk) as (i & found & Hget).
        exists (column found :: cols). constructor; [| exact Hcols].
        split; [| eauto].
        rewrite (required_plain_column _ _ Hp).
        unfold mbind, outcome_mbind, outcome_bind. rewrite Hget.
        reflexivity. }
    destruct Hcols as (columns & Hcols). exists columns. split.
    + assert (Hm : mapM (MemorySource.required_column src_block)
                     names_and_types = Done columns).
      { apply mapM_Done_Forall2. eapply Forall2_impl; [exact Hcols |].
        intros elem col [Hd _]. exact Hd. }
      rewrite Hm. reflexivity.
    + eapply Forall2_impl; [exact Hcols |]. intros elem col [_ Hf]. exact Hf.
  - intros Hunknown. unfold project.
    assert (Hcodes : Forall (fun elem =>
              match MemorySource.required_column src_block elem with
              | Done _ => True
              | Thrown e => code e = ErrorCodes.NOT_FOUND_COLUMN_IN_BLOCK
              | _ => False
              end) names_and_types).
    { eapply Forall_impl; [exact Hplain |]. intros elem Hp. simpl in Hp.
      rewrite (required_plain_column _ _ Hp).
      unfold mbind, outcome_mbind, outcome_bind.
      destruct (decide (getNameInStorage elem ∈ block_names src_block))
        as [Hin | Hout].
      - destruct (getByName_present _ _ Hin) as (i & found & Hget).
        rewrite Hget. exact I.
      - destruct (getByName_absent _ _ Hout) as (e & He & Hcode).
        rewrite He. exact Hcode. }
    pose proof (mapM_throws_code _ _ _ Hcodes) as Hloop.
    destruct (mapM (MemorySource.required_column src_block) names_and_types)
      as [columns | e | |] eqn:Hm; try contradiction.
    + exfalso. apply Hunknown. unfold known.
      apply mapM_Done_Forall2 in Hm.
      clear -Hm Hplain. induction Hm as [| elem col rest cols Hd _ IH].
      * constructor.
      * inversion Hplain as [| ? ? Hp Hps]; subst.
        constructor; [| apply IH; exact Hps].
        rewrite (required_plain_column _ _ Hp) in Hd.
        unfold mbind, outcome_mbind, outcome_bind in Hd.
        destruct (decide (getNameInStorage elem ∈ block_names src_block))
          as [Hin | Hout]; [exact Hin |].
        destruct (getByName_absent _ _ Hout) as (e & He & _).
        rewrite He in Hd. discriminate.
    + exists e. split; [reflexivity | exact Hloop].
Qed.

End ProjectFacts.

(** ** More on scans *)

Section ScanMore.
Context `{Externals}.


(** The indices delivered to one worker, from a start value [c], are at
    least [c] and strictly increasing. *)
Lemma trace_deliveries_sorted sources size w schedule : forall c,
  c + N.of_nat (length schedule) <= 2 ^ SIZE_WIDTH ->
  Forall (fun i => c <= i) (deliveries size (trace sources c schedule) w)
  /\ StronglySorted N.lt (deliveries size (trace sources c schedule) w).
Proof.
  induction schedule as [| w0 rest IH]; intros c Hwrap.
  - simpl. split; constructor.
  - cbn [trace].
    assert (Hrest : rest = [] \/ c + 1 < 2 ^ SIZE_WIDTH).
    { destruct rest as [| w' rest']; [left; reflexivity | right].
      change (length (w0 :: w' :: rest')) with (S (S (length rest'))) in Hwrap.
      lia. }
    change (length (w0 :: rest)) with (S (length rest)) in Hwrap.
    destruct (sources !! w0) as [src |].
    + assert (Htail :
        Forall (fun i => c + 1 <= i)
               (deliveries size (trace sources (wrap64 (c + 1)) rest) w)
        /\ StronglySorted N.lt
             (deliveries size (trace sources (wrap64 (c + 1)) rest) w)).
      { destruct Hrest as [-> | Hsmall]; [split; constructor |].
        rewrite (wrap64_small _ Hsmall). apply IH. lia. }
      destruct Htail as [Hge Hsorted].
      unfold deliveries. cbn [omap list_omap].
      fold (deliveries size (trace sources (wrap64 (c + 1)) rest) w).
      destruct (bool_decide (worker _ = w)); simpl.
      * unfold delivered_index. simpl.
        destruct (produce src c); simpl;
          try (split; [eapply Forall_impl; [exact Hge |]; simpl; lia
                      | exact Hsorted]).
        destruct (c <? size); simpl.
        -- split.
           ++ constructor; [lia |].
              eapply Forall_impl; [exact Hge |]. simpl. lia.
           ++ constructor; [exact Hsorted |].
              eapply Forall_impl; [exact Hge |]. simpl. lia.
        -- split; [eapply Forall_impl; [exact Hge |]; simpl; lia
                  | exact Hsorted].
      * split; [eapply Forall_impl; [exact Hge |]; simpl; lia
               | exact Hsorted].
    + apply IH. lia.
Qed.

(** X13. In a scan created by [read], under any interleaving of at most
    [2^64] calls, the batch indices delivered to any one worker are
    strictly increasing: a worker never receives a batch twice and
    receives its batches in the order of the snapshot. *)
Theorem worker_deliveries_increase
    column_names metadata_snapshot (P : N) s pipe s'
    (schedule : list nat) (w : nat) :
  StorageAggregatingMemory.read column_names metadata_snapshot P s
    = (Done pipe, s') ->
  N.of_nat (length schedule) <= 2 ^ SIZE_WIDTH ->
  StronglySorted N.lt
    (deliveries (N.of_nat (length (Storage.data s)))
                (run schedule pipe).1 w).
Proof.
  intros Hread Hcalls.
  pose proof (read_shares_cursor _ _ _ _ _ _ Hread) as Hshared.
  rewrite (run_shares_cursor _ _ _ _ Hshared). simpl.
  apply trace_deliveries_sorted. lia.
Qed.

End ScanMore.

Section RepeatedCalls.
Context `{Externals}.






End RepeatedCalls.

Section PrivateIndex.
Context `{Externals}.




End PrivateIndex.

(** ** More on construction *)

Section ConstructionMore.
Context `{Externals}.

(** X16. The constructor returns a storage exactly when the create query
    has a select whose list holds one element and the select description
    can be built from it; the storage then has the given identity,
    columns and constraints, that description, an empty published
    sequence and zero counters. A select list without any element is
    refused with the union message, like one with several. *)
Theorem create_returns_iff
    (table_id_ : StorageID) (columns_description_ : list (string * DataType))
    (constraints_ : list IAST) (query : ASTCreateQuery) :
  (forall s,
      StorageAggregatingMemory.create table_id_ columns_description_
        constraints_ query = Done s
      <-> exists query_select description,
            select query = Some query_select
            /\ length (children (list_of_selects query_select)) = 1%nat
            /\ getSelectQueryFromASTForAggr query_select = Done description
            /\ s = Storage.mk table_id_
                     (mkStorageInMemoryMetadata columns_description_
                        constraints_ (Some description))
                     [] 0 0)
  /\ (forall query_select,
        select query = Some query_select ->
        children (list_of_selects query_select) = [] ->
        UnsupportedUnionQuery
          (StorageAggregatingMemory.create table_id_ columns_description_
             constraints_ query)).
Proof.
  split.
  - intros s. unfold StorageAggregatingMemory.create. split.
    + destruct (select query) as [query_select |]; [| discriminate].
      destruct (Nat.eqb_spec (length (children (list_of_selects query_select)))
                  1) as [Hone | Hmany]; simpl; [| discriminate].
      unfold mbind, mret, outcome_mbind, outcome_ret, outcome_bind.
      destruct (getSelectQueryFromASTForAggr query_select) as [d | | |] eqn:Hd;
        try discriminate.
      intros Hs. inversion Hs; subst. exists query_select, d. auto.
    + intros (query_select & d & Hsel & Hone & Hd & ->).
      rewrite Hsel, Hone. simpl.
      unfold mbind, mret, outcome_mbind, outcome_ret, outcome_bind.
      rewrite Hd. reflexivity.
  - intros query_select Hsel Hnone.
    unfold UnsupportedUnionQuery, StorageAggregatingMemory.create.
    rewrite Hsel, Hnone. reflexivity.
Qed.

End ConstructionMore.

(** ** More on the NONE codec *)

Module CodecNoneMore.
Import CompressionCodecNone CodecNoneFacts.

(** X17. Compression writes exactly [source_size] bytes: on buffers that
    hold that many bytes it returns [source_size] as the compressed size,
    the first [source_size] bytes of the destination are those of the
    source, and the destination keeps its length and every byte behind
    them. *)
Theorem doCompressData_writes_source_size
    (source dest : list Byte.byte) (source_size : N) :
  (N.to_nat source_size <= length source)%nat ->
  (N.to_nat source_size <= length dest)%nat ->
  exists compressed,
    doCompressData source source_size dest = Done (compressed, source_size)
    /\ take (N.to_nat source_size) compressed
       = take (N.to_nat source_size) source
    /\ drop (N.to_nat source_size) compressed
       = drop (N.to_nat source_size) dest
    /\ length compressed = length dest.
Proof.
  intros Hsrc Hdst. unfold doCompressData.
  rewrite memcpy_Done by assumption. simpl.
  eexists. split; [reflexivity |].
  split; [apply take_memcpy_result; assumption |].
  split; [apply drop_memcpy_result; assumption |].
  rewrite length_app, length_take, length_drop. lia.
Qed.

(** X18. A declared size that differs from the size of the data is
    always detected on the way back: decoding what compression produced
    from [x] under any declared size other than the length of [x] throws
    CORRUPTED_DATA. *)
Theorem wrong_declared_size_is_detected
    (x dest dest2 : list Byte.byte) (declared : N) :
  (length x <= length dest)%nat ->
  declared <> N.of_nat (length x) ->
  let n := N.of_nat (length x) in
  exists compressed,
    doCompressData x n dest = Done (compressed, n)
    /\ fails_with ErrorCodes.CORRUPTED_DATA
         (doDecompressData compressed n dest2 declared).
Proof.
  intros Hd Hwrong n. unfold doCompressData.
  rewrite memcpy_Done by (unfold n; lia). simpl.
  eexists. split; [reflexivity |].
  unfold doDecompressData.
  destruct (N.eqb_spec n declared) as [Heq | Hne];
    [exfalso; apply Hwrong; symmetry; exact Heq |].
  simpl. eexists. split; reflexivity.
Qed.

End CodecNoneMore.

(** ** The key wrapper *)

Module SSHFacts.
Import SSH.

Section SSHFacts.
Context `{LibSSH}.

Lemma construct_Returned (k : ssh_key) own w :
  construct k own = Returned w ->
  key w = k /\ k <> None
  /\ key_deleter w = (if own then deleter else disabledDeleter).
Proof.
  unfold construct. simpl. case_bool_decide; [discriminate |].
  intros Hr. inversion Hr; subst. simpl. auto.
Qed.

Lemma construct_holds_key (k : ssh_key) own w :
  construct k own = Returned w -> key w <> None.
Proof.
  intros Hr. apply construct_Returned in Hr.
  destruct Hr as (Hkey & Hk & _). rewrite Hkey. exact Hk.
Qed.

Lemma copy_Returned other w :
  copy other = Returned w -> key w <> None /\ key_deleter w = deleter.
Proof.
  unfold copy. simpl. case_bool_decide as Hnull; [discriminate |].
  intros Hr. inversion Hr; subst. simpl. auto.
Qed.

Lemma createFromBase64_Returned base64 key_type w :
  createFromBase64 base64 key_type = Returned w ->
  key w <> None /\ key_deleter w = deleter.
Proof.
  unfold createFromBase64.
  destruct (ssh_pki_import_pubkey_base64 _ _) as [rc k].
  destruct (negb _); [discriminate |].
  intros Hr. apply construct_Returned in Hr.
  destruct Hr as (Hkey & Hk & Hd). rewrite Hkey. auto.
Qed.

Lemma createFromFile_Returned filename w :
  createFromFile filename = Returned w ->
  key w <> None /\ key_deleter w = deleter.
Proof.
  unfold createFromFile.
  destruct (ssh_pki_import_pubkey_file _) as [rc k].
  destruct (negb _); [destruct (_ =? _)%Z; discriminate |].
  intros Hr. apply construct_Returned in Hr.
  destruct Hr as (Hkey & Hk & Hd). rewrite Hkey. auto.
Qed.

Lemma emplace_Returned made (objects objects1 : Objects) :
  emplace made objects = Returned objects1 ->
  exists this, made = Returned this /\ objects1 = objects ++ [this].
Proof.
  unfold emplace. destruct made as [this | |]; try discriminate.
  intros Hr. inversion Hr. eauto.
Qed.

(** An object placed at the end that holds a key adds no address with a
    null key. *)
Lemma emplace_nulls made (objects objects1 : Objects) :
  (forall this, made = Returned this -> key this <> None) ->
  emplace made objects = Returned objects1 ->
  length objects1 = S (length objects)
  /\ forall a obj1, objects1 !! a = Some obj1 -> key obj1 = None ->
       exists obj, objects !! a = Some obj /\ key obj = None.
Proof.
  intros Hkey Hr.
  destruct (emplace_Returned _ _ _ Hr) as (this & Hmade & ->).
  split; [rewrite length_app; simpl; lia |].
  intros a obj1 Ha Hnull. apply lookup_app_Some in Ha.
  destruct Ha as [Ha | [_ Ha]]; [eauto |].
  apply list_lookup_singleton_Some in Ha. destruct Ha as [_ <-].
  exfalso. exact (Hkey this Hmade Hnull).
Qed.

(** One operation: an address that holds a null key afterwards held one
    before, or took part in the move. *)
Lemma perform_nulls op (objects objects1 : Objects) :
  perform op objects = Returned objects1 ->
  length objects1
  = (if creates op then S (length objects) else length objects)
  /\ forall a obj1, objects1 !! a = Some obj1 -> key obj1 = None ->
       a ∈ moved_by op (length objects)
       \/ exists obj, objects !! a = Some obj /\ key obj = None.
Proof.
  destruct op as [key_ own | other | this other | other | this other
                 | base64 key_type | filename | key_]; simpl.
  - intros Hr.
    destruct (emplace_nulls _ _ _ (construct_holds_key _ _) Hr)
      as [Hlen Hnull].
    split; [exact Hlen | intros; right; eauto].
  - destruct (objects !! other) as [source |]; [| discriminate].
    intros Hr.
    destruct (emplace_nulls _ _ _
                (fun w Hw => proj1 (copy_Returned _ _ Hw)) Hr)
      as [Hlen Hnull].
    split; [exact Hlen | intros; right; eauto].
  - unfold operator_assign.
    destruct (objects !! this) as [target |] eqn:Ht; [| discriminate].
    destruct (objects !! other) as [source |]; [| discriminate].
    case_bool_decide as Hsame; simpl.
    + intros Hr. inversion Hr; subst. split; [reflexivity |].
      intros; right; eauto.
    + case_bool_decide as Hdup; [discriminate |].
      intros Hr. inversion Hr; subst. split; [apply length_insert |].
      intros a obj1 Ha Hnull. right.
      apply list_lookup_insert_Some in Ha.
      destruct Ha as [(_ & <- & _) | [_ Ha]]; [contradiction | eauto].
  - unfold move.
    destruct (objects !! other) as [source |] eqn:Ho; [| discriminate].
    intros Hr. inversion Hr; subst. unfold Objects in *.
    split; [rewrite length_app, length_insert; simpl; lia |].
    intros a obj1 Ha Hnull. apply lookup_app_Some in Ha.
    destruct Ha as [Ha | [Hge Ha]].
    + apply list_lookup_insert_Some in Ha.
      destruct Ha as [(<- & _) | [_ Ha]];
        [left; apply elem_of_cons; auto | right; eauto].
    + apply list_lookup_singleton_Some in Ha. destruct Ha as [Hpos _].
      rewrite length_insert in Hge, Hpos.
      left. apply elem_of_cons. right. apply list_elem_of_singleton. lia.
  - unfold operator_move_assign.
    destruct (objects !! this) as [target |] eqn:Ht; [| discriminate].
    destruct (objects !! other) as [source |]; [| discriminate].
    case_bool_decide as Hsame.
    + intros Hr. inversion Hr; subst. split; [reflexivity |].
      intros; right; eauto.
    + intros Hr. inversion Hr; subst. unfold Objects in *.
      split; [rewrite !length_insert; reflexivity |].
      intros a obj1 Ha Hnull.
      apply list_lookup_insert_Some in Ha.
      destruct Ha as [(<- & _) | [_ Ha]];
        [left; apply elem_of_cons; right; apply list_elem_of_singleton;
         reflexivity |].
      apply list_lookup_insert_Some in Ha.
      destruct Ha as [(<- & _) | [_ Ha]];
        [left; apply elem_of_cons; auto | right; eauto].
  - intros Hr.
    destruct (emplace_nulls _ _ _
                (fun w Hw => proj1 (createFromBase64_Returned _ _ _ Hw)) Hr)
      as [Hlen Hnull].
    split; [exact Hlen | intros; right; eauto].
  - intros Hr.
    destruct (emplace_nulls _ _ _
                (fun w Hw => proj1 (createFromFile_Returned _ _ Hw)) Hr)
      as [Hlen Hnull].
    split; [exact Hlen | intros; right; eauto].
  - intros Hr. unfold createNonOwning in Hr.
    destruct (emplace_nulls _ _ _ (construct_holds_key _ _) Hr)
      as [Hlen Hnull].
    split; [exact Hlen | intros; right; eauto].
Qed.

Lemma perform_all_nulls ops : forall (objects objects' : Objects),
  perform_all ops objects = Returned objects' ->
  forall a obj', objects' !! a = Some obj' -> key obj' = None ->
    a ∈ moved ops (length objects)
    \/ exists obj, objects !! a = Some obj /\ key obj = None.
Proof.
  induction ops as [| op rest IH]; intros objects objects' Hr a obj' Ha Hnull.
  - inversion Hr; subst. right. eauto.
  - simpl in Hr.
    destruct (perform op objects) as [objects1 | |] eqn:Hop; try discriminate.
    destruct (perform_nulls _ _ _ Hop) as [Hlen Hstep].
    simpl. rewrite <- Hlen.
    destruct (IH _ _ Hr a obj' Ha Hnull) as [Hin | (obj1 & Ha1 & Hnull1)].
    + left. apply elem_of_app. right. exact Hin.
    + destruct (Hstep _ _ Ha1 Hnull1) as [Hin | Hold].
      * left. apply elem_of_app. left. exact Hin.
      * right. exact Hold.
Qed.

(** X19. No constructor or factory of the wrapper yields an object
    around a null key: whatever [libssh] answers, an object that is
    returned holds a non-null key; objects made by the copy constructor,
    [createFromBase64] and [createFromFile] carry the freeing deleter
    and objects made by [createNonOwning] the disabled one. Over any
    sequence of constructions, copies, assignments and moves on objects
    that all hold a key, an object is left holding a null key only at an
    address that took part in a move, as its source or its destination:
    without moves every object holds a key. *)
Theorem wrappers_hold_a_key_unless_moved :
  (forall (k : ssh_key) own w,
      construct k own = Returned w ->
      key w = k /\ key w <> None
      /\ key_deleter w = (if own then deleter else disabledDeleter))
  /\ (forall other w,
        copy other = Returned w ->
        key w <> None /\ key_deleter w = deleter)
  /\ (forall base64 key_type w,
        createFromBase64 base64 key_type = Returned w ->
        key w <> None /\ key_deleter w = deleter)
  /\ (forall filename w,
        createFromFile filename = Returned w ->
        key w <> None /\ key_deleter w = deleter)
  /\ (forall (k : ssh_key) w,
        createNonOwning k = Returned w ->
        key w = k /\ key w <> None /\ key_deleter w = disabledDeleter)
  /\ (forall (ops : list Op) (objects objects' : Objects),
        Forall (fun obj => key obj <> None) objects ->
        perform_all ops objects = Returned objects' ->
        forall a obj,
          objects' !! a = Some obj -> key obj = None ->
          a ∈ moved ops (length objects)).
Proof.
  split; [| split; [| split; [| split; [| split]]]].
  - intros k own w Hr. apply construct_Returned in Hr.
    destruct Hr as (Hkey & Hk & Hd). rewrite Hkey. auto.
  - apply copy_Returned.
  - apply createFromBase64_Returned.
  - apply createFromFile_Returned.
  - intros k w Hr. apply construct_Returned in Hr.
    destruct Hr as (Hkey & Hk & Hd). rewrite Hkey. auto.
  - intros ops objects objects' Hheld Hr a obj Ha Hnull.
    destruct (perform_all_nulls _ _ _ Hr a obj Ha Hnull)
      as [Hin | (obj0 & Ha0 & Hnull0)]; [exact Hin |].
    rewrite Forall_lookup in Hheld. exfalso. exact (Hheld _ _ Ha0 Hnull0).
Qed.

(** X20. The outcomes of [createFromFile] by what the import reports: a
    wrapper around the imported key when the code is [SSH_OK] and the key
    is not null; LOGICAL_ERROR when the code is [SSH_OK] and the key is
    null; BAD_ARGUMENTS when the code is [SSH_EOF] (and not [SSH_OK]);
    SSH_EXCEPTION for every other code. *)
Theorem createFromFile_outcomes (filename : string) :
  let rc := (ssh_pki_import_pubkey_file filename).1 in
  let imported := (ssh_pki_import_pubkey_file filename).2 in
  match createFromFile filename with
  | Returned w =>
      rc = SSH_OK /\ imported <> None /\ w = mkSSHPublicKey imported deleter
  | Thrown e =>
      match code e with
      | LOGICAL_ERROR => rc = SSH_OK /\ imported = None
      | BAD_ARGUMENTS => rc <> SSH_OK /\ rc = SSH_EOF
      | SSH_EXCEPTION => rc <> SSH_OK /\ rc <> SSH_EOF
      end
  | Undefined => False
  end.
Proof.
  unfold createFromFile.
  destruct (ssh_pki_import_pubkey_file filename) as [rc k]. simpl.
  destruct (Z.eqb_spec rc SSH_OK) as [Hok | Hfail]; simpl.
  - unfold construct. simpl. case_bool_decide; simpl; auto.
  - destruct (Z.eqb_spec rc SSH_EOF); simpl; auto.
Qed.

End SSHFacts.
End SSHFacts.

(** ** Abandoned sessions *)

Section AbandonedSessions.
Context `{Externals}.

Lemma write_all_rejected stream accepted rejected later e s :
  Forall (fun b => check_block (AggregatingOutputStream.metadata_snapshot stream) b
                   = Done tt) accepted ->
  check_block (AggregatingOutputStream.metadata_snapshot stream) rejected
    = Thrown e ->
  write_all stream (accepted ++ rejected :: later) s = (Thrown e, s).
Proof.
  revert stream. induction accepted as [| b rest IH]; intros stream Hok Hbad.
  - simpl. unfold AggregatingOutputStream.write. storage_unfold.
    rewrite Hbad. reflexivity.
  - inversion Hok as [| ? ? Hb Hrest]; subst.
    simpl. unfold AggregatingOutputStream.write. storage_unfold.
    rewrite Hb. simpl.
    specialize (IH (AggregatingOutputStream.mk
                      (AggregatingOutputStream.new_blocks stream ++ [b])
                      (AggregatingOutputStream.metadata_snapshot stream))).
    simpl in IH. storage_unfold. apply IH; assumption.
Qed.

(** X21. A session in which a block is rejected publishes nothing: the
    exception of the first rejected block ends the session, the blocks
    accepted before it are dropped with the stream, and the published
    sequence and both counters stay as they were. *)
Theorem rejected_block_abandons_session
    (metadata_snapshot : StorageInMemoryMetadata)
    (accepted : Blocks) (rejected : Block) (later : Blocks)
    (e : Exception) (s : Storage.t) :
  Forall (fun b => check_block metadata_snapshot b = Done tt) accepted ->
  check_block metadata_snapshot rejected = Thrown e ->
  insert_session metadata_snapshot (accepted ++ rejected :: later) s
  = (Thrown e, s).
Proof.
  intros Hok Hbad. unfold insert_session, StorageAggregatingMemory.write.
  storage_unfold.
  rewrite (write_all_rejected
             (AggregatingOutputStream.mk [] metadata_snapshot)
             accepted rejected later e s Hok Hbad).
  reflexivity.
Qed.

End AbandonedSessions.

(** ** Counters after a mutation *)

Section MutateCounters.
Context `{Externals}.

(** X22. Every mutation that returns, in either build and on either
    branch, leaves in [total_size_bytes] the summed [rows()] of the
    sequence it has published and in [total_size_rows] its summed
    [bytes()], in [size_t]: what [totalRows] answers afterwards is the
    byte sum and what [totalBytes] answers is the row sum. *)
Theorem mutation_leaves_counters_crosswise NDEBUG
    (interpreter : MutationsInterpreter) (s : Storage.t) :
  (StorageAggregatingMemory.mutate NDEBUG interpreter s).1 = Done tt ->
  let s' := (StorageAggregatingMemory.mutate NDEBUG interpreter s).2 in
  (StorageAggregatingMemory.totalBytes s').1
    = Done (Some (wrap64 (total rows (Storage.data s'))))
  /\ (StorageAggregatingMemory.totalRows s').1
     = Done (Some (wrap64 (total bytes (Storage.data s')))).
Proof.
  intros Hdone s'.
  destruct (mutate_stores_sums_crosswise NDEBUG interpreter s Hdone)
    as [Hbytes Hrows].
  fold s' in Hbytes, Hrows.
  unfold StorageAggregatingMemory.totalBytes,
    StorageAggregatingMemory.totalRows.
  storage_unfold. simpl. rewrite Hbytes, Hrows. auto.
Qed.

End MutateCounters.

(** * Further worked examples *)

Module ExtraExamples.
Import Fixture FixtureMore.

Lemma updateBlockData_keeps_schema_witness :
  exists updated,
    updateBlockData old_xy new_y = Done updated
    /\ Forall2 (fun before after =>
                  name after = name before /\ type after = type before)
               old_xy updated.
Proof.
  eexists. split; [reflexivity |].
  exact (updateBlockData_keeps_schema new_y old_xy _ eq_refl).
Defined.

Lemma updateBlockData_replaces_by_name_witness :
  exists updated,
    updateBlockData old_xy new_y = Done updated
    /\ updated = replaced_by new_y <$> old_xy.
Proof.
  eexists. split; [reflexivity |].
  apply (updateBlockData_replaces_by_name new_y old_xy).
  - apply (bool_decide_unpack _). vm_compute. exact I.
  - apply (bool_decide_unpack _). vm_compute. exact I.
  - reflexivity.
Defined.

Lemma mutate_same_in_both_builds_witness :
  let interpreter := mkMutationsInterpreter (Done [A'; B'; C']) false in
  StorageAggregatingMemory.mutate true interpreter (table [A; B; C] 288 22)
  = StorageAggregatingMemory.mutate false interpreter (table [A; B; C] 288 22).
Proof.
  intros interpreter.
  apply (mutate_same_in_both_builds interpreter [A'; B'; C']).
  - reflexivity.
  - right. reflexivity.
Defined.

Lemma partial_mutation_keeps_blocks_and_schema_witness :
  let interpreter := mkMutationsInterpreter (Done [A'; B'; C']) false in
  exists s',
    StorageAggregatingMemory.mutate false interpreter (table [A; B; C] 288 22)
      = (Done tt, s')
    /\ length (Storage.data s') = 3%nat.
Proof.
  intros interpreter.
  exists (StorageAggregatingMemory.mutate false interpreter
            (table [A; B; C] 288 22)).2.
  split; [reflexivity |].
  refine (proj1 (proj2 (partial_mutation_keeps_blocks_and_schema false
                          interpreter (table [A; B; C] 288 22) _ _ _))).
  - reflexivity.
  - reflexivity.
Defined.

Lemma throwing_mutation_changes_nothing_witness :
  let interpreter := mkMutationsInterpreter (Done [block_z]) false in
  let s := table [A] 128 10 in
  let r := StorageAggregatingMemory.mutate true interpreter s in
  exists e,
    r.1 = Thrown e
    /\ code e = ErrorCodes.NOT_FOUND_COLUMN_IN_BLOCK
    /\ r.2 = s.
Proof.
  intros interpreter s r.
  assert (Hthrown : exists e, r.1 = Thrown e) by (eexists; reflexivity).
  destruct Hthrown as [e He]. exists e.
  destruct (proj1 (throwing_mutation_changes_nothing true interpreter s)
              e He) as [Hkept [Hstream | [_ Hcode]]].
  - discriminate Hstream.
  - auto.
Defined.

Lemma mutation_of_all_columns_supersedes_witness :
  let interpreter := mkMutationsInterpreter (Done [A; B]) true in
  let r := StorageAggregatingMemory.mutate true interpreter
             (table [C] 96 7) in
  r.1 = Done tt
  /\ Storage.data r.2 = StorageAggregatingMemory.read_all [A; B].
Proof.
  intros interpreter.
  apply (mutation_of_all_columns_supersedes true interpreter [A; B]);
    reflexivity.
Defined.

Lemma mutation_leaves_counters_crosswise_witness :
  let interpreter := mkMutationsInterpreter (Done [A; B]) true in
  let s' := (StorageAggregatingMemory.mutate false interpreter
               (table [C] 96 7)).2 in
  Storage.data s' = [A; B]
  /\ (StorageAggregatingMemory.totalBytes s').1 = Done (Some 15)
  /\ (StorageAggregatingMemory.totalRows s').1 = Done (Some 160).
Proof.
  intros interpreter s'. split; [reflexivity |].
  exact (mutation_leaves_counters_crosswise false interpreter
           (table [C] 96 7) eq_refl).
Defined.

Lemma counters_follow_inserts_and_resets_witness :
  counters_consistent
    (apply_ops [Insert meta_x [A; B]; Truncate; Insert meta_x [block_z];
                Insert meta_x [C]]
       (table [] 0 0)).2.
Proof.
  apply (proj2 counters_follow_inserts_and_resets).
  split; reflexivity.
Defined.

Lemma sessions_append_in_finalize_order_witness :
  let r := apply_ops (Insert meta_x <$> [[A]; [B; C]]) (table [] 0 0) in
  r.1 = Done tt /\ Storage.data r.2 = [] ++ concat [[A]; [B; C]].
Proof.
  apply (sessions_append_in_finalize_order meta_x [[A]; [B; C]] (table [] 0 0)).
  repeat constructor.
Defined.

Lemma scan_sees_finalized_sessions_only_witness :
  exists before after,
    Forall (fun src => MemorySource.data src = Some [A]) (processors before)
    /\ Forall (fun src => MemorySource.data src = Some ([A] ++ [B]))
              (processors after).
Proof.
  eexists _, _.
  eapply (scan_sees_finalized_sessions_only ["x"] meta_x 4 [B]
            (table [A] 128 10)); lazy; reflexivity.
Defined.

Lemma project_plain_columns_witness :
  exists columns,
    project request_x A = Done (mkChunk columns (rows A))
    /\ Forall2 (fun elem col =>
                  exists i found,
                    getByName A (getNameInStorage elem) = Done (i, found)
                    /\ column found = col)
               request_x columns.
Proof.
  refine (proj1 (project_plain_columns request_x A _) _).
  - repeat constructor.
  - repeat constructor.
Defined.


Lemma worker_deliveries_increase_witness :
  exists pipe s',
    scan_AB = (Done pipe, s')
    /\ StronglySorted N.lt
         (deliveries 2 (run [0; 0; 1; 0]%nat pipe).1 0%nat).
Proof.
  eexists _, _. split; [reflexivity |].
  refine (worker_deliveries_increase ["x"] meta_x 4 (table [A; B] 192 15)
            _ _ [0; 0; 1; 0]%nat 0%nat eq_refl _).
  vm_compute. discriminate.
Defined.



Lemma rejected_block_abandons_session_witness :
  exists e,
    check_block meta_x block_z = Thrown e
    /\ insert_session meta_x ([A] ++ block_z :: [B]) (table [C] 96 7)
       = (Thrown e, table [C] 96 7).
Proof.
  eexists. split; [reflexivity |].
  apply (rejected_block_abandons_session meta_x [A] block_z [B]).
  - repeat constructor.
  - reflexivity.
Defined.

End ExtraExamples.

Module SSHExamples.
Import SSH SSHFacts FixtureSSH.

Lemma wrappers_hold_a_key_unless_moved_witness :
  let ops := [CreateFromBase64 "AAAA" "ssh-rsa"; Move 0; Copy 1;
              CopyAssign 2 1] in
  exists objects,
    perform_all ops [] = Returned objects
    /\ key <$> objects = [None; Some "AAAA"; Some "AAAA"]
    /\ moved ops 0 = [0; 1]%nat
    /\ forall a obj,
         objects !! a = Some obj -> key obj = None -> a ∈ moved ops 0.
Proof.
  intros ops. eexists.
  split; [reflexivity |]. split; [reflexivity |]. split; [reflexivity |].
  exact (proj2 (proj2 (proj2 (proj2 (proj2 wrappers_hold_a_key_unless_moved))))
           ops [] _ (Forall_nil_2 _) eq_refl).
Defined.

End SSHExamples.

Module CodecNoneMoreExamples.
Import CompressionCodecNone CodecNoneMore.

Lemma doCompressData_writes_source_size_witness :
  let source := [Byte.x61; Byte.x62; Byte.x63] in
  let dest := [Byte.x00; Byte.x00; Byte.x00; Byte.xff] in
  exists compressed,
    doCompressData source 2 dest = Done (compressed, 2)
    /\ take 2 compressed = take 2 source
    /\ drop 2 compressed = drop 2 dest
    /\ length compressed = length dest.
Proof.
  intros source dest.
  apply (doCompressData_writes_source_size source dest 2); simpl; lia.
Defined.

Lemma wrong_declared_size_is_detected_witness :
  let x := [Byte.x68; Byte.x69] in
  let dest := [Byte.x00; Byte.x00; Byte.x00] in
  exists compressed,
    doCompressData x 2 dest = Done (compressed, 2)
    /\ fails_with ErrorCodes.CORRUPTED_DATA
         (doDecompressData compressed 2 dest 3).
Proof.
  intros x dest.
  apply (wrong_declared_size_is_detected x dest dest 3); simpl; lia.
Defined.

End CodecNoneMoreExamples.
